(** * Clean briefing pipeline of newsfeed10_clean_briefing.py

    A shallow embedding of the text pipeline of the news summariser
    (normalize, tokenize, is_low_signal, jaccard, cluster_titles,
    label_cluster, representative_title, build_clean_paragraph) and the
    properties of it that the specification states.

    Modelling conventions.
    - A Python [str] is a [string]: a sequence of 8-bit characters read as
      the code points U+0000..U+00FF.  On that range [str.lower] works
      character by character, and the white space of [\s], [str.split] and
      [str.strip] is the same set of twelve code points.
    - [re.sub] is modelled once ([re_sub]), scanning left to right and
      replacing non-overlapping matches; each pattern is a function giving
      the length of the match anchored at the current position.
    - A [Counter] is an association list in insertion order, because
      [most_common] breaks ties by insertion order.
    - The quotient of two integers computed by [jaccard] is an exact
      rational; thresholds are rationals too.
    - An exception is a value: [build_clean_paragraph] returns [Ok] with
      the paragraph or [IndexError]. *)

From Stdlib Require Import String Ascii QArith Permutation.
From stdpp Require Import base gmap sets list strings sorting.

Local Open Scope string_scope.
Local Open Scope list_scope.
Local Open Scope nat_scope.

(** ** Characters *)

Module Char.

Definition code (c : ascii) : N := N_of_ascii c.

Definition between (lo hi n : N) : bool := ((lo <=? n) && (n <=? hi))%N.

(** White space in the sense of [str.isspace], [\s] and [str.split]:
    TAB..CR, FS..US, SPACE, NEL and NBSP. *)
Definition is_space (c : ascii) : bool :=
  let n := code c in
  between 9 13 n || between 28 32 n || (n =? 133)%N || (n =? 160)%N.

Definition is_az (c : ascii) : bool := between 97 122 (code c).
Definition is_09 (c : ascii) : bool := between 48 57 (code c).
Definition is_hyphen (c : ascii) : bool := (code c =? 45)%N.

(** [str.isdigit] on one character: the decimal digits and the
    superscripts U+00B2, U+00B3, U+00B9. *)
Definition is_digit (c : ascii) : bool :=
  let n := code c in
  between 48 57 n || (n =? 178)%N || (n =? 179)%N || (n =? 185)%N.

(** [str.lower] on one character: A..Z and the upper-case letters of
    U+00C0..U+00DE (the multiplication sign U+00D7 is not a letter). *)
Definition lower (c : ascii) : ascii :=
  let n := code c in
  if between 65 90 n || (between 192 222 n && negb (n =? 215)%N)
  then ascii_of_N (n + 32) else c.

(** The characters that [normalize] lets through. *)
Definition is_norm (c : ascii) : bool :=
  is_az c || is_09 c || is_hyphen c || (code c =? 32)%N.

End Char.

(** ** Regular-expression substitution *)

(** A pattern, as the length of its match anchored at the head of the
    remaining text ([None]: no match here). *)
Definition matcher := list ascii → option nat.

(** [re.sub(pattern, repl, s)] for a pattern that never matches the empty
    string: [skip] characters of a match found earlier are still to be
    dropped. *)
Fixpoint re_sub_from (m : matcher) (repl : list ascii) (skip : nat)
    (s : list ascii) : list ascii :=
  match s with
  | [] => []
  | c :: s' =>
      match skip with
      | S k => re_sub_from m repl k s'
      | O =>
          match m s with
          | Some (S k) => repl ++ re_sub_from m repl k s'
          | _ => c :: re_sub_from m repl 0 s'
          end
      end
  end.

Definition re_sub (m : matcher) (repl : list ascii) (s : list ascii) :=
  re_sub_from m repl 0 s.

(** Length of the longest prefix whose characters all satisfy [p]. *)
Fixpoint span (p : ascii → bool) (s : list ascii) : nat :=
  match s with
  | c :: s' => if p c then S (span p s') else 0
  | [] => 0
  end.

Fixpoint strip_prefix (p s : list ascii) : option (list ascii) :=
  match p, s with
  | [], _ => Some s
  | a :: p', b :: s' => if decide (a = b) then strip_prefix p' s' else None
  | _ :: _, [] => None
  end.

Definition chars (s : string) : list ascii := list_ascii_of_string s.
Definition str (l : list ascii) : string := string_of_list_ascii l.

(** [://\S+] after a scheme of [n] characters. *)
Definition match_url_tail (n : nat) (s : list ascii) : option nat :=
  match strip_prefix (chars "://") s with
  | Some r =>
      let k := span (λ c, negb (Char.is_space c)) r in
      if decide (k = 0) then None else Some (n + 3 + k)
  | None => None
  end.

(** [https?://\S+]: the optional [s] is tried first. *)
Definition match_url : matcher := λ s,
  match strip_prefix (chars "http") s with
  | Some r =>
      let with_s :=
        match r with
        | c :: r' => if decide (c = "s"%char) then match_url_tail 5 r' else None
        | [] => None
        end in
      match with_s with
      | Some n => Some n
      | None => match_url_tail 4 r
      end
  | None => None
  end.

(** [\([^)]*\)]: an opening parenthesis up to the next closing one. *)
Definition match_paren : matcher := λ s,
  match s with
  | c :: r =>
      if decide (c = "("%char) then
        let k := span (λ c, negb (bool_decide (c = ")"%char))) r in
        match drop k r with
        | _ :: _ => Some (k + 2)
        | [] => None
        end
      else None
  | [] => None
  end.

(** [[^a-z0-9\s-]]. *)
Definition match_other : matcher := λ s,
  match s with
  | c :: _ =>
      if Char.is_az c || Char.is_09 c || Char.is_space c || Char.is_hyphen c
      then None else Some 1
  | [] => None
  end.

(** [\s+]. *)
Definition match_spaces : matcher := λ s,
  let k := span Char.is_space s in
  if decide (k = 0) then None else Some k.

(** ** Text utilities *)

Fixpoint lstrip (s : list ascii) : list ascii :=
  match s with
  | c :: s' => if Char.is_space c then lstrip s' else s
  | [] => []
  end.

(** [str.strip()]. *)
Definition strip (s : list ascii) : list ascii :=
  rev (lstrip (rev (lstrip s))).

(** [str.split()]: the maximal runs of characters that are not white
    space; [cur] is the run being read, last character first. *)
Fixpoint split_from (cur : list ascii) (s : list ascii) : list (list ascii) :=
  match s with
  | [] => match cur with [] => [] | _ => [rev cur] end
  | c :: s' =>
      if Char.is_space c then
        match cur with
        | [] => split_from [] s'
        | _ => rev cur :: split_from [] s'
        end
      else split_from (c :: cur) s'
  end.

Definition split (s : list ascii) : list (list ascii) := split_from [] s.

Definition normalize_chars (s : list ascii) : list ascii :=
  let text := map Char.lower s in
  let text := re_sub match_url (chars " ") text in
  let text := re_sub match_paren (chars " ") text in
  let text := re_sub match_other (chars " ") text in
  strip (re_sub match_spaces (chars " ") text).

Definition normalize (text : string) : string :=
  str (normalize_chars (chars text)).

Definition words_of (l : list string) : gset string := list_to_set l.

Definition STOP : gset string := words_of
  [ "a"; "an"; "the"; "and"; "or"; "but"; "if"; "then"; "than"; "so"; "to";
    "of"; "in"; "on"; "for"; "with"; "from"; "by"; "at"; "as"; "is"; "are";
    "was"; "were"; "be"; "been"; "being";
    "this"; "that"; "these"; "those"; "it"; "its"; "into"; "over"; "under";
    "about"; "across"; "after"; "before"; "during"; "between"; "also";
    "not"; "no";
    "can"; "could"; "would"; "should"; "may"; "might"; "will"; "just";
    "more"; "most"; "much"; "very"; "per"; "via" ].

Definition SPORTS : gset string := words_of
  [ "nba"; "nfl"; "nhl"; "mlb"; "match"; "game"; "games"; "season";
    "playoff"; "all-star"; "dunk"; "overtime"; "quarter"; "finals";
    "championship";
    "wrestle"; "wrestling"; "division"; "scoreboard"; "wildcats"; "lakers" ].

Definition LIFESTYLE_LOCAL : gset string := words_of
  [ "wedding"; "weddings"; "horoscope"; "crossword"; "recipe"; "recipes";
    "dining"; "travel"; "scenic"; "waterfall"; "park";
    "town"; "county"; "local"; "citizen"; "newsletter"; "obituaries";
    "health"; "scores" ].

Definition FINANCE_TICKER : gset string := words_of
  [ "nyse"; "nasdaq"; "etf"; "stock"; "stocks"; "shares"; "bond"; "bonds";
    "yield"; "earnings"; "ticker"; "short"; "interest"; "price"; "target" ].

(** [str.isdigit()]: not empty and every character a digit. *)
Definition isdigit (w : string) : bool :=
  match chars w with
  | [] => false
  | cs => forallb Char.is_digit cs
  end.

(** The condition of the comprehension in [tokenize]. *)
Definition keep_word (w : string) : bool :=
  bool_decide (w ∉ STOP) && (2 <? String.length w)%nat && negb (isdigit w).

(** The list comprehension of [tokenize], over the words already split. *)
Fixpoint keep_words (ws : list string) : list string :=
  match ws with
  | [] => []
  | w :: ws' => if keep_word w then w :: keep_words ws' else keep_words ws'
  end.

(** [text.split()] on strings. *)
Definition words (text : string) : list string := str <$> split (chars text).

Definition tokenize (text : string) : list string :=
  keep_words (words (normalize text)).


(** ** Article records *)

(** A field of an article record (a Python dict): the key may be absent,
    hold [None], or hold a text. *)
Inductive field := Missing | Null | Text (s : string).

Record Row := { title : field; description : field }.

Global Instance field_eq_dec : EqDecision field.
Proof. solve_decision. Defined.

Global Instance Row_eq_dec : EqDecision Row.
Proof. solve_decision. Defined.

(** [r.get(key)] and [r.get(key, "")]; [None] is Python's [None]. *)
Definition get (f : field) : option string :=
  match f with Text s => Some s | _ => None end.

Definition get_or_empty (f : field) : option string :=
  match f with Missing => Some "" | Null => None | Text s => Some s end.

(** [x or ""]. *)
Definition or_empty (o : option string) : string := default "" o.

(** ** Signal filter *)

Definition is_low_signal (title desc : option string) : bool :=
  let ws : gset string :=
    list_to_set (tokenize (or_empty title +:+ " " +:+ or_empty desc)) in
  if (2 <=? size (ws ∩ SPORTS))%nat then true
  else if (2 <=? size (ws ∩ LIFESTYLE_LOCAL))%nat then true
  else if (3 <=? size (ws ∩ FINANCE_TICKER))%nat then true
  else false.

(** ** Sorting *)

(** Python's sort is stable; [before x y] says that [x] may stand in
    front of [y]; an element is put in front of the first one it may
    stand in front of, so equal elements keep their order. *)
Fixpoint insert_by {A} (before : A → A → bool) (x : A) (l : list A) : list A :=
  match l with
  | [] => [x]
  | y :: l' => if before x y then x :: l else y :: insert_by before x l'
  end.

Definition stable_sort {A} (before : A → A → bool) (l : list A) : list A :=
  foldr (insert_by before) [] l.

(** ** Token counters *)

Abbreviation Counter := (list (string * nat)).

Fixpoint counter_incr (w : string) (c : Counter) : Counter :=
  match c with
  | [] => [(w, 1)]
  | (k, n) :: c' =>
      if decide (k = w) then (k, S n) :: c' else (k, n) :: counter_incr w c'
  end.

(** [counts.update(tks)]; [Counter(tks)] is the update of the empty one. *)
Definition counter_update (c : Counter) (tks : list string) : Counter :=
  fold_left (λ c w, counter_incr w c) tks c.

Definition counter_of (tks : list string) : Counter := counter_update [] tks.

(** [counts.get(w, 0)]. *)
Fixpoint counts_get (c : Counter) (w : string) : nat :=
  match c with
  | [] => 0
  | (k, n) :: c' => if decide (k = w) then n else counts_get c' w
  end.

(** [counts.most_common(n)]: the first [n] entries of the counter sorted by
    decreasing count, entries of equal count in insertion order. *)
Definition most_common (n : nat) (c : Counter) : Counter :=
  take n (stable_sort (λ x y, y.2 <=? x.2)%nat c).

(** ** Storyline clustering *)

Definition Qltb (x y : Q) : bool := negb (Qle_bool y x).

Definition jaccard (a b : list string) : Q :=
  let A : gset string := list_to_set a in
  let B : gset string := list_to_set b in
  if decide (A = ∅) then 0%Q
  else if decide (B = ∅) then 0%Q
  else
    let u := size (A ∪ B) in
    Z.of_nat (size (A ∩ B)) # Pos.of_nat (if decide (u = 0) then 1 else u).

Record Cluster := { rows : list Row; tok_counts : Counter }.

Definition centroid (c : Cluster) : list string :=
  (most_common 25 (tok_counts c)).*1.

(** The scan over [enumerate(clusters)], from index [i] on, carrying
    [(best_i, best_sim)]. *)
Fixpoint best_match_from (tks : list string) (i : nat) (cs : list Cluster)
    (best : option nat * Q) : option nat * Q :=
  match cs with
  | [] => best
  | c :: cs' =>
      let sim := jaccard tks (centroid c) in
      best_match_from tks (S i) cs'
        (if Qltb best.2 sim then (Some i, sim) else best)
  end.

Definition best_match (tks : list string) (cs : list Cluster) : option nat * Q :=
  best_match_from tks 0 cs (None, 0%Q).

Definition join (r : Row) (tks : list string) (c : Cluster) : Cluster :=
  {| rows := rows c ++ [r]; tok_counts := counter_update (tok_counts c) tks |}.

Definition singleton_cluster (r : Row) (tks : list string) : Cluster :=
  {| rows := [r]; tok_counts := counter_of tks |}.

(** [(r.get("title") or "").strip()]. *)
Definition stripped_title (r : Row) : string :=
  str (strip (chars (or_empty (get (title r))))).

(** The end of the loop body of [cluster_titles], for a record [r] with
    title tokens [tks].  [best_i] comes from the enumeration, so
    [clusters[best_i]] is always in range. *)
Definition assign (sim_threshold : Q) (clusters : list Cluster) (r : Row)
    (tks : list string) : list Cluster :=
  let '(best_i, best_sim) := best_match tks clusters in
  match best_i with
  | Some i =>
      if Qle_bool sim_threshold best_sim
      then alter (join r tks) i clusters
      else clusters ++ [singleton_cluster r tks]
  | None => clusters ++ [singleton_cluster r tks]
  end.

(** One iteration of the loop of [cluster_titles]; the two [continue]s
    leave the clusters as they are. *)
Definition cluster_step (sim_threshold : Q) (clusters : list Cluster)
    (r : Row) : list Cluster :=
  let title := stripped_title r in
  if decide (title = "") then clusters
  else
    let tks := tokenize title in
    match tks with
    | [] => clusters
    | _ => assign sim_threshold clusters r tks
    end.

(** The clusters in the order of their creation, before the final sort. *)
Definition cluster_loop (sim_threshold : Q) (rs : list Row) : list Cluster :=
  fold_left (cluster_step sim_threshold) rs [].

Definition by_size_desc (x y : Cluster) : bool :=
  (length (rows y) <=? length (rows x))%nat.

Definition cluster_titles (rs : list Row) (sim_threshold : Q) : list Cluster :=
  stable_sort by_size_desc (cluster_loop sim_threshold rs).

Definition default_threshold : Q := 33 # 100.

(** ** Topic labels *)

(** The dict [TOPIC_LEXICON], in the order of its declaration. *)
Definition TOPIC_LEXICON : list (string * list string) :=
  [ ("Geopolitics & security",
      ["war"; "military"; "nuclear"; "sanctions"; "border"; "defense";
       "attack"; "navy"]);
    ("Elections & governance",
      ["election"; "vote"; "parliament"; "government"; "president";
       "minister"; "court"; "policy"]);
    ("Economy & markets",
      ["inflation"; "gdp"; "economy"; "bank"; "interest"; "rate";
       "currency"; "trade"; "jobs"; "markets"]);
    ("Tech & AI",
      ["ai"; "artificial"; "chip"; "cyber"; "data"; "software"; "platform"]);
    ("Climate & disasters",
      ["climate"; "flood"; "storm"; "drought"; "wildfire"; "earthquake"]);
    ("Public safety & crime",
      ["police"; "arrest"; "trial"; "fraud"; "shooting"; "crime"]) ].

(** [sum(counts.get(w, 0) for w in words)]. *)
Definition topic_score (counts : Counter) (words : list string) : nat :=
  sum_list (counts_get counts <$> words).

(** The loop of [label_cluster] over the rest of the table, carrying
    [(best_topic, best_score)]. *)
Fixpoint label_scan (counts : Counter) (lexicon : list (string * list string))
    (best : option string * nat) : option string * nat :=
  match lexicon with
  | [] => best
  | (topic, words) :: rest =>
      let score := topic_score counts words in
      label_scan counts rest
        (if (best.2 <? score)%nat then (Some topic, score) else best)
  end.

Definition label_counts (counts : Counter) : string :=
  match (label_scan counts TOPIC_LEXICON (None, 0%nat)).1 with
  | Some topic => if decide (topic = "") then "Other" else topic
  | None => "Other"
  end.

Definition label_cluster (cluster : Cluster) : string :=
  label_counts (tok_counts cluster).

(** ** Exceptions *)

Inductive result (A : Type) := Ok (a : A) | IndexError.
Arguments Ok {A} a.
Arguments IndexError {A}.

Global Instance result_ret : MRet result := λ A a, Ok a.
Global Instance result_bind : MBind result := λ A B f m,
  match m with Ok a => f a | IndexError => IndexError end.

(** [l[i]] for an index that is not negative. *)
Definition index {A} (l : list A) (i : nat) : result A :=
  match l !! i with Some x => Ok x | None => IndexError end.

(** ** Representative headline *)

(** The sort key [(-score(title), len(title))] and the order of tuples. *)
Definition title_key (counts : Counter) (r : Row) : Z * nat :=
  let t := get_or_empty (title r) in
  ((- Z.of_nat (topic_score counts (tokenize (or_empty t))))%Z,
   String.length (or_empty t)).

Definition key_le (x y : Z * nat) : bool :=
  (x.1 <? y.1)%Z || ((x.1 =? y.1)%Z && (x.2 <=? y.2)%nat).

Definition representative_title (cluster : Cluster) : result (option string) :=
  let counts := tok_counts cluster in
  let rows_sorted :=
    stable_sort (λ x y, key_le (title_key counts x) (title_key counts y))
      (rows cluster) in
  r ← index rows_sorted 0;
  mret (get_or_empty (title r)).

(** ** Narrative paragraph *)

(** How an f-string prints a title that may be [None]. *)
Definition fmt (o : option string) : string :=
  match o with Some s => s | None => "None" end.

(** The loop that picks clusters of distinct topics, with its [break]. *)
Fixpoint choose_from (clusters chosen : list (Cluster * string))
    (seen : gset string) : list (Cluster * string) :=
  match clusters with
  | [] => chosen
  | c :: rest =>
      let '(chosen, seen) :=
        if decide (c.2 ∉ seen) then (chosen ++ [c], {[c.2]} ∪ seen)
        else (chosen, seen) in
      if decide (length chosen = 3) then chosen
      else choose_from rest chosen seen
  end.

Definition no_headlines : string :=
  "No headlines were available to summarize.".

Definition insufficient_signal : string :=
  "Insufficient signal to produce a coherent summary.".

(** [build_clean_paragraph] once the clusters are known. *)
Definition narrate (clusters : list Cluster) : result string :=
  match clusters with
  | [] => Ok insufficient_signal
  | _ =>
      let labelled := (λ c, (c, label_cluster c)) <$> clusters in
      let chosen := choose_from labelled [] ∅ in
      let chosen := if (length chosen <? 3)%nat then take 3 labelled else chosen in
      lines ← mapM (λ c : Cluster * string,
                      rep ← representative_title c.1;
                      mret (c.2 +:+ ": " +:+ fmt rep)) chosen;
      l0 ← index lines 0;
      l1 ← index lines 1;
      l2 ← index lines 2;
      mret ("The current headlines point to several parallel developments. "
            +:+ l0 +:+ ". " +:+ l1 +:+ ". " +:+ l2 +:+ ". "
            +:+ "Taken together, the feed reflects a dispersed news cycle rather than a single dominant global event.")
  end.

Definition signal (r : Row) : bool :=
  negb (is_low_signal (get_or_empty (title r)) (get_or_empty (description r))).

Definition build_clean_paragraph (rs : list Row) : result string :=
  match rs with
  | [] => Ok no_headlines
  | _ =>
      let filtered := filter signal rs in
      let corpus := if (40 <=? length filtered)%nat then filtered else rs in
      narrate (cluster_titles corpus default_threshold)
  end.

Definition headline (t : string) : Row :=
  {| title := Text t; description := Missing |}.

(** * Notions used by the properties *)

(** What [[^a-z0-9\s-]] leaves in place. *)
Definition clean (c : ascii) : bool :=
  Char.is_az c || Char.is_09 c || Char.is_space c || Char.is_hyphen c.

(** A pattern whose matches end before the next space and never reach
    over the end of the text. *)
Record space_local (m : matcher) : Prop := {
  sl_app t b : m (t ++ " "%char :: b) = m t;
  sl_nil : m [] = None;
  sl_len t n : m t = Some n → (n ≤ length t)%nat
}.

(** White space occurs only as single spaces. *)
Fixpoint single_spaced (t : list ascii) : Prop :=
  match t with
  | [] => True
  | c :: t' =>
      (Char.is_space c →
         c = " "%char ∧ match t' with d :: _ => ¬ Char.is_space d | [] => True end)
      ∧ single_spaced t'
  end.

(** No white space at either end. *)
Definition trimmed (t : list ascii) : Prop :=
  (∀ c r, t = c :: r → Char.is_space c = false)
  ∧ (∀ c r, t = r ++ [c] → Char.is_space c = false).

(** The shape of a normalized text. *)
Definition normal (t : list ascii) : Prop :=
  Forall (λ c, Char.is_norm c) t ∧ single_spaced t ∧ trimmed t.

(** Steps (a) to (d) of [normalize], before white space is collapsed. *)
Definition scrub (s : list ascii) : list ascii :=
  re_sub match_other (chars " ")
    (re_sub match_paren (chars " ")
       (re_sub match_url (chars " ") (map Char.lower s))).

(** What [split_from] emits for the run read so far. *)
Definition flush (cur : list ascii) : list (list ascii) :=
  match cur with [] => [] | _ => [rev cur] end.

(** A word composed entirely of the digits 0 to 9. *)
Definition digits_only (w : string) : Prop :=
  w ≠ "" ∧ Forall (λ c, Char.is_09 c) (chars w).

(** The words that [tokenize] is specified to keep. *)
Definition content_word (w : string) : Prop :=
  (w ∉ STOP) ∧ (2 < String.length w) ∧ ¬ digits_only w.

Global Instance content_word_dec w : Decision (content_word w).
Proof. unfold content_word, digits_only. apply _. Defined.

(** The text after the first two steps of [normalize]: lower case, and
    links replaced by a space. *)
Definition url_stripped (text : option string) : list ascii :=
  re_sub match_url (chars " ") (map Char.lower (chars (or_empty text))).

(** Some "(" of the text has no ")" after it. *)
Fixpoint dangling (s : list ascii) : bool :=
  match s with
  | [] => false
  | c :: s' =>
      (bool_decide (c = "("%char) && negb (bool_decide (")"%char ∈ s')))
      || dangling s'
  end.

(** A parenthetical span opens in [t] and closes in [d] when [t] stands
    in front of [d]. *)
Definition spans_across (t d : option string) : Prop :=
  dangling (url_stripped t) ∧ ")"%char ∈ url_stripped d.

(** [n] distinct words occur both among the tokens and in the lexicon. *)
Definition shares (n : nat) (tokens : list string) (lexicon : gset string) : Prop :=
  ∃ l : list string,
    NoDup l ∧ length l = n ∧ ∀ w, w ∈ l → w ∈ tokens ∧ w ∈ lexicon.

(** A record that the loop of [cluster_titles] skips: its stripped title
    is empty or has no token. *)
Definition unclusterable (r : Row) : Prop :=
  stripped_title r = "" ∨ tokenize (stripped_title r) = [].

Global Instance unclusterable_dec r : Decision (unclusterable r).
Proof. unfold unclusterable. apply _. Defined.

(** The records of the feed that are not low-signal. *)
Definition kept (rs : list Row) : list Row :=
  filter (λ r, is_low_signal (get_or_empty (title r))
                 (get_or_empty (description r)) = false) rs.

(** The corpus that [build_clean_paragraph] hands to [cluster_titles]. *)
Definition corpus (rs : list Row) : list Row :=
  if 40 <=? length (filter signal rs) then filter signal rs else rs.

(** Entry [i] of the topic table, [topic], has the highest score, and every
    entry declared before it has a strictly lower one. *)
Definition first_best_topic (counts : Counter) (i : nat) (topic : string)
    (score : nat) : Prop :=
  ∃ words,
    TOPIC_LEXICON !! i = Some (topic, words)
    ∧ score = topic_score counts words
    ∧ ∀ j t w, TOPIC_LEXICON !! j = Some (t, w) →
        topic_score counts w ≤ score ∧ (j < i → topic_score counts w < score).

(** The similarity of a record's tokens to a cluster: Jaccard against the
    25 most frequent tokens of the cluster. *)
Definition similarity (tks : list string) (c : Cluster) : Q :=
  jaccard tks (centroid c).

(** Cluster [i] has the highest similarity to [tks], and every cluster
    created before it a strictly lower one. *)
Definition earliest_best (tks : list string) (clusters : list Cluster)
    (i : nat) (c : Cluster) : Prop :=
  clusters !! i = Some c
  ∧ ∀ j c', clusters !! j = Some c' →
      (similarity tks c' <= similarity tks c)%Q
      ∧ (j < i → (similarity tks c' < similarity tks c)%Q).

(** The assignment of a record [r] as the specification words it: [r]
    joins the earliest best cluster when the best similarity satisfies
    [joins], and founds a cluster of its own otherwise. *)
Definition assignment_rule (joins : Q → Prop) (clusters : list Cluster)
    (r : Row) (after : list Cluster) : Prop :=
  let tks := tokenize (stripped_title r) in
  (∃ i c, earliest_best tks clusters i c
          ∧ joins (similarity tks c)
          ∧ after = alter (join r tks) i clusters)
  ∨ ((∀ i c, earliest_best tks clusters i c → ¬ joins (similarity tks c))
     ∧ after = clusters ++ [singleton_cluster r tks]).

(** How often [w] occurs in [tks]. *)
Definition occurrences (w : string) (tks : list string) : nat :=
  length (filter (λ x, x = w) tks).

Definition cluster_size (c : Cluster) : nat := length (rows c).

(** The records of all clusters, cluster by cluster. *)
Definition members (clusters : list Cluster) : list Row :=
  concat (rows <$> clusters).

(** The records that the clustering does not skip. *)
Definition clusterable (rs : list Row) : list Row :=
  filter (λ r, ¬ unclusterable r) rs.

(** * Notions used by the further properties *)

(** The tokens of the titles of the records, record after record. *)
Definition title_tokens (rs : list Row) : list string :=
  concat ((λ r, tokenize (stripped_title r)) <$> rs).

(** The cluster that a record founds. *)
Definition own_cluster (r : Row) : Cluster :=
  singleton_cluster r (tokenize (stripped_title r)).

(** The score and the title length that [representative_title] sorts by. *)
Definition title_score (counts : Counter) (r : Row) : nat :=
  topic_score counts (tokenize (or_empty (get_or_empty (title r)))).

Definition title_length (r : Row) : nat :=
  String.length (or_empty (get_or_empty (title r))).

(** The template of the paragraph, around its three lines. *)
Definition template (l0 l1 l2 : string) : string :=
  "The current headlines point to several parallel developments. "
  +:+ l0 +:+ ". " +:+ l1 +:+ ". " +:+ l2 +:+ ". "
  +:+ "Taken together, the feed reflects a dispersed news cycle rather than a single dominant global event.".

(** The line of the paragraph for a cluster with representative title [t]. *)
Definition line_of (c : Cluster) (t : option string) : string :=
  label_cluster c +:+ ": " +:+ fmt t.

(** The clusters of the corpus of a feed. *)
Definition feed_clusters (rs : list Row) : list Cluster :=
  cluster_titles (corpus rs) default_threshold.

(** ** Fetching the feed *)

(** The query parameters of one request; [category] and [page] are set
    only when the value is truthy. *)
Record Params := {
  apikey : string;
  language : string;
  category : option string;
  page : option string
}.

(** The fields of the JSON reply that [fetch_top_n] reads:
    [data.get("status")], [data.get("results") or []] and
    [data.get("nextPage")]. *)
Record Data := {
  status : option string;
  results : list Row;
  nextPage : option string
}.

(** What a request comes to: an exception of [requests.get],
    [raise_for_status] or [json], or the decoded reply. *)
Inductive reply := Fails (e : string) | Json (data : Data).

(** The news service: its reply to the [k]-th request of a run. *)
Definition service := nat → Params → reply.

(** How a run of [fetch_top_n] ends. *)
Inductive fetched :=
  | Items (items : list Row)
  | RuntimeError (data : Data)
  | Raised (e : string).

(** A value that Python takes for true in [if x:]: neither [None] nor
    the empty string. *)
Definition truthy (o : option string) : option string :=
  match o with
  | Some s => if decide (s = "") then None else Some s
  | None => None
  end.

(** [items[:n]]. *)
Definition slice_to (items : list Row) (n : Z) : list Row :=
  if (n <? 0)%Z then take (Z.to_nat (Z.of_nat (length items) + n)) items
  else take (Z.to_nat n) items.

(** The loop of [fetch_top_n] with [calls] iterations left, before request
    number [k]; the result is the list of the requests made and the items
    at the end of the loop, or the exception raised. *)
Fixpoint fetch_loop (srv : service) (api_key lang : string)
    (cat : option string) (n : Z) (calls k : nat) (items : list Row)
    (page_token : option string) : list Params * fetched :=
  match calls with
  | 0 => ([], Items items)
  | S calls' =>
      let params := {| apikey := api_key; language := lang;
                       category := truthy cat; page := truthy page_token |} in
      match srv k params with
      | Fails e => ([params], Raised e)
      | Json data =>
          if decide (status data = Some "success") then
            let items := items ++ results data in
            if (n <=? Z.of_nat (length items))%Z then ([params], Items items)
            else
              let page_token := nextPage data in
              match truthy page_token with
              | None => ([params], Items items)
              | Some _ =>
                  let '(log, out) :=
                    fetch_loop srv api_key lang cat n calls' (S k) items
                      page_token in
                  (params :: log, out)
              end
          else ([params], RuntimeError data)
      end
  end.

(** One run of [fetch_top_n] that is not served from the cache, with the
    requests it makes. *)
Definition fetch_run (srv : service) (api_key : string) (n : Z)
    (lang : string) (max_calls : Z) (cat : option string)
    : list Params * fetched :=
  let '(log, out) :=
    fetch_loop srv api_key lang cat n (Z.to_nat max_calls) 0 [] None in
  (log, match out with Items items => Items (slice_to items n) | _ => out end).

Definition fetch_top_n (srv : service) (api_key : string) (n : Z)
    (lang : string) (max_calls : Z) (cat : option string) : fetched :=
  (fetch_run srv api_key n lang max_calls cat).2.

(** The replies to the requests of a log, the first being request
    number [k]. *)
Fixpoint replies (srv : service) (k : nat) (log : list Params) : list reply :=
  match log with
  | [] => []
  | p :: log' => srv k p :: replies srv (S k) log'
  end.

(** The items of the replies that are decoded and successful. *)
Definition page_items (r : reply) : list Row :=
  match r with Json data => results data | Fails _ => [] end.

Definition successful (r : reply) : Prop :=
  ∃ data, r = Json data ∧ status data = Some "success".

(** A service of two pages, then an error, for the examples. *)
Definition two_pages : service := λ k p,
  match k, page p with
  | 0, None =>
      Json {| status := Some "success";
              results := [headline "Navy attack near the border";
                          headline "Inflation data lifts markets"];
              nextPage := Some "p2" |}
  | 1, Some "p2" =>
      Json {| status := Some "success";
              results := [headline "Flood and storm damage spreads"];
              nextPage := None |}
  | _, _ => Json {| status := Some "error"; results := []; nextPage := None |}
  end.

(** The first request of a log carries the token [tok], and each later one
    the [nextPage] token of the reply before it. *)
Fixpoint threaded (srv : service) (k : nat) (tok : option string)
    (log : list Params) : Prop :=
  match log with
  | [] => True
  | p :: log' =>
      page p = truthy tok
      ∧ match log' with
        | [] => True
        | _ =>
            ∃ data, srv k p = Json data
                    ∧ is_Some (truthy (nextPage data))
                    ∧ threaded srv (S k) (nextPage data) log'
        end
  end.

(** A service that refuses every request, for the examples. *)
Definition refusal : Data :=
  {| status := Some "error"; results := []; nextPage := None |}.

Definition refusing : service := λ _ _, Json refusal.

(** * Properties *)

(** ** Characters *)

Ltac each_char c :=
  destruct c as [[] [] [] [] [] [] [] []]; vm_compute; try done;
  try (intros; discriminate); try (split; intros; (done || discriminate)).

Lemma lower_norm c : Char.is_norm c → Char.lower c = c.
Proof. each_char c. Qed.

Lemma lower_paren c : Char.lower c = "("%char → c = "("%char.
Proof. each_char c. Qed.

Lemma lower_space : Char.lower " " = " "%char.
Proof. reflexivity. Qed.

Lemma norm_not_space c :
  Char.is_norm c → Char.is_space c → c = " "%char.
Proof. each_char c. Qed.

Lemma norm_digit c : Char.is_norm c → Char.is_digit c = Char.is_09 c.
Proof. each_char c. Qed.

Lemma clean_norm c :
  clean c → (Char.is_space c → c = " "%char) → Char.is_norm c.
Proof.
  destruct c as [[] [] [] [] [] [] [] []]; vm_compute; try done;
    intros _ H; specialize (H I); discriminate.
Qed.

Lemma norm_clean c : Char.is_norm c → clean c.
Proof. each_char c. Qed.

(** ** Substitution *)

Section re_sub.
Context (m : matcher) (repl : list ascii).

Lemma re_sub_from_drop k s :
  re_sub_from m repl k s = re_sub m repl (drop k s).
Proof.
  revert k. induction s as [|c s IH]; intros [|k]; try done.
  simpl. apply IH.
Qed.

Lemma re_sub_cons c s :
  re_sub m repl (c :: s) =
    match m (c :: s) with
    | Some (S k) => repl ++ re_sub m repl (drop k s)
    | _ => c :: re_sub m repl s
    end.
Proof.
  unfold re_sub at 1. simpl.
  destruct (m (c :: s)) as [[|k]|]; try done.
  by rewrite re_sub_from_drop.
Qed.

(** Induction along the scan of [re_sub]. *)
Lemma re_sub_ind (P : list ascii → list ascii → Prop) :
  P [] [] →
  (∀ c s out, (∀ k, m (c :: s) ≠ Some (S k)) →
     P s out → P (c :: s) (c :: out)) →
  (∀ c s k out, m (c :: s) = Some (S k) →
     P (drop k s) out → P (c :: s) (repl ++ out)) →
  ∀ s, P s (re_sub m repl s).
Proof.
  intros Hnil Hkeep Hsub s.
  remember (length s) as n eqn:Hn.
  revert s Hn. induction n as [n IH] using lt_wf_ind.
  intros [|c s] Hn; [done|].
  rewrite re_sub_cons. simpl in Hn.
  destruct (m (c :: s)) as [[|k]|] eqn:Hm.
  - apply (Hkeep c s (re_sub m repl s)); [intros ?; congruence|].
    eapply IH; [|done]. lia.
  - apply (Hsub c s k (re_sub m repl (drop k s))); [done|].
    eapply IH; [|done]. rewrite length_drop. lia.
  - apply (Hkeep c s (re_sub m repl s)); [intros ?; congruence|].
    eapply IH; [|done]. lia.
Qed.

(** Where the pattern matches nowhere, nothing changes. *)
Lemma re_sub_id (Q : list ascii → Prop) :
  (∀ c t, Q (c :: t) → Q t) →
  (∀ t, Q t → m t = None) →
  ∀ s, Q s → re_sub m repl s = s.
Proof.
  intros Htl Hno s. induction s as [|c s IH]; intros HQ; [done|].
  rewrite re_sub_cons, (Hno _ HQ). f_equal. eauto.
Qed.

(** Every character of the result comes from the text or from the
    replacement. *)
Lemma re_sub_Forall (P : ascii → Prop) s :
  Forall P repl → Forall P s → Forall P (re_sub m repl s).
Proof.
  intros Hr. revert s.
  apply (re_sub_ind (λ s out, Forall P s → Forall P out)).
  - done.
  - intros c s out _ IH Hs. inversion Hs; subst. constructor; auto.
  - intros c s k out _ IH Hs. inversion Hs; subst.
    apply Forall_app. split; [done|]. apply IH. by apply Forall_drop.
Qed.
End re_sub.

Lemma re_sub_app_space m (Hm : space_local m) a b :
  re_sub m (chars " ") (a ++ " "%char :: b)
  = re_sub m (chars " ") a ++ " "%char :: re_sub m (chars " ") b.
Proof.
  revert a.
  apply (re_sub_ind m (chars " ") (λ a out,
    re_sub m (chars " ") (a ++ " "%char :: b)
    = out ++ " "%char :: re_sub m (chars " ") b)).
  - simpl. rewrite re_sub_cons.
    pose proof (sl_app m Hm [] b) as E. simpl in E.
    by rewrite E, (sl_nil m Hm).
  - intros c s out Hno IH.
    change ((c :: s) ++ " "%char :: b) with (c :: (s ++ " "%char :: b)).
    rewrite re_sub_cons.
    change (c :: (s ++ " "%char :: b)) with ((c :: s) ++ " "%char :: b).
    rewrite (sl_app m Hm).
    destruct (m (c :: s)) as [[|k]|] eqn:E.
    + by rewrite IH.
    + by destruct (Hno k).
    + by rewrite IH.
  - intros c s k out Hk IH.
    change ((c :: s) ++ " "%char :: b) with (c :: (s ++ " "%char :: b)).
    rewrite re_sub_cons.
    change (c :: (s ++ " "%char :: b)) with ((c :: s) ++ " "%char :: b).
    rewrite (sl_app m Hm), Hk.
    apply (sl_len m Hm) in Hk. simpl in Hk.
    rewrite drop_app_le by lia. rewrite IH. by rewrite <- app_assoc.
Qed.

(** ** The patterns of [normalize] *)

Lemma strip_prefix_Some p s r : strip_prefix p s = Some r → s = p ++ r.
Proof.
  revert s. induction p as [|a p IH]; intros [|b s]; simpl; try congruence.
  destruct (decide (a = b)) as [->|]; [|done]. intros H. f_equal. by apply IH.
Qed.

Lemma strip_prefix_app_space p t b :
  " "%char ∉ p →
  strip_prefix p (t ++ " "%char :: b) = (λ r, r ++ " "%char :: b) <$> strip_prefix p t.
Proof.
  revert t. induction p as [|a p IH]; intros t Hp; [done|].
  apply not_elem_of_cons in Hp as [Ha Hp].
  destruct t as [|c t]; simpl.
  - by destruct (decide (a = " "%char)).
  - destruct (decide (a = c)); [by apply IH|done].
Qed.

Lemma span_le p s : span p s ≤ length s.
Proof. induction s as [|c s IH]; simpl; [lia|]. destruct (p c); lia. Qed.

Lemma span_Forall (p : ascii → bool) s :
  Forall (λ c, p c) (take (span p s) s).
Proof.
  induction s as [|c s IH]; simpl; [done|].
  destruct (p c) eqn:E; simpl; [|done]. constructor; [by rewrite E|done].
Qed.

Lemma span_stop (p : ascii → bool) s c r :
  drop (span p s) s = c :: r → p c = false.
Proof.
  induction s as [|d s IH]; simpl; [done|].
  destruct (p d) eqn:E; simpl; [done|]. by intros [= <- _].
Qed.

Lemma span_app_space r b :
  span (λ c, negb (Char.is_space c)) (r ++ " "%char :: b)
  = span (λ c, negb (Char.is_space c)) r.
Proof.
  induction r as [|c r IH]; simpl; [done|].
  by destruct (negb (Char.is_space c)); [rewrite IH|].
Qed.

Lemma match_url_tail_app_space n r b :
  match_url_tail n (r ++ " "%char :: b) = match_url_tail n r.
Proof.
  unfold match_url_tail. rewrite strip_prefix_app_space.
  2:{ apply (bool_decide_unpack _). by vm_compute. }
  destruct (strip_prefix (chars "://") r) as [r'|]; simpl; [|done].
  by rewrite span_app_space.
Qed.

Lemma match_url_tail_len n r k :
  match_url_tail n r = Some k → k ≤ n + length r ∧ ":"%char ∈ r.
Proof.
  unfold match_url_tail.
  destruct (strip_prefix (chars "://") r) as [r'|] eqn:E; [|done].
  apply strip_prefix_Some in E as ->.
  case_decide; [done|]. intros [= <-]. split.
  - pose proof (span_le (λ c, negb (Char.is_space c)) r').
    rewrite length_app. simpl. lia.
  - simpl. left.
Qed.

Lemma match_url_space_local : space_local match_url.
Proof.
  split.
  - intros t b. unfold match_url. rewrite strip_prefix_app_space.
    2:{ apply (bool_decide_unpack _). by vm_compute. }
    destruct (strip_prefix (chars "http") t) as [r|]; simpl; [|done].
    destruct r as [|c r]; cbn [app].
    + pose proof (match_url_tail_app_space 4 [] b) as E. cbn [app] in E.
      rewrite decide_False by done. by rewrite E.
    + pose proof (match_url_tail_app_space 4 (c :: r) b) as E.
      cbn [app] in E. rewrite E.
      by case_decide; [rewrite match_url_tail_app_space|].
  - done.
  - intros t n. unfold match_url.
    destruct (strip_prefix (chars "http") t) as [r|] eqn:E; [|done].
    apply strip_prefix_Some in E as ->. rewrite length_app. simpl.
    destruct r as [|c r].
    + intros [H _]%match_url_tail_len. simpl in H. simpl. lia.
    + destruct (decide (c = "s"%char)) as [->|].
      * destruct (match_url_tail 5 r) as [k|] eqn:E.
        -- intros [= <-]. apply match_url_tail_len in E as [E _]. simpl. lia.
        -- intros [H _]%match_url_tail_len. simpl in H. simpl. lia.
      * intros [H _]%match_url_tail_len. simpl in H. simpl. lia.
Qed.

Lemma match_url_colon s n : match_url s = Some n → ":"%char ∈ s.
Proof.
  unfold match_url.
  destruct (strip_prefix (chars "http") s) as [r|] eqn:E; [|done].
  apply strip_prefix_Some in E as ->. intros H.
  apply elem_of_app. right.
  destruct r as [|c r].
  - by apply match_url_tail_len in H as [_ ?].
  - destruct (decide (c = "s"%char)) as [->|].
    + destruct (match_url_tail 5 r) as [k|] eqn:E.
      * apply match_url_tail_len in E as [_ ?]. by right.
      * by apply match_url_tail_len in H as [_ ?].
    + by apply match_url_tail_len in H as [_ ?].
Qed.

Lemma match_paren_open s n : match_paren s = Some n → "("%char ∈ s.
Proof.
  destruct s as [|c s]; simpl; [done|].
  case_decide; [|done]. subst. intros _. left.
Qed.

Lemma match_other_space_local : space_local match_other.
Proof.
  split.
  - by intros [|c t] b.
  - done.
  - intros [|c t] n; simpl; [done|].
    destruct (_ || _); [done|]. intros [= <-]. lia.
Qed.

Lemma match_other_clean c s : clean c → match_other (c :: s) = None.
Proof. unfold clean. simpl. by destruct (_ || _). Qed.

Lemma match_other_keep c s :
  (∀ k, match_other (c :: s) ≠ Some (S k)) → clean c.
Proof.
  unfold clean. simpl. destruct (_ || _); [done|]. intros H. by destruct (H 0).
Qed.

(** On text without the characters a pattern needs, each substitution is
    the identity. *)
Lemma sub_url_id s : ":"%char ∉ s → re_sub match_url (chars " ") s = s.
Proof.
  apply (re_sub_id match_url _ (λ s, ":"%char ∉ s)).
  - intros c t H Ht. apply H. by right.
  - intros t Ht. destruct (match_url t) as [n|] eqn:E; [|done].
    by apply match_url_colon in E.
Qed.

Lemma sub_paren_id s : "("%char ∉ s → re_sub match_paren (chars " ") s = s.
Proof.
  apply (re_sub_id match_paren _ (λ s, "("%char ∉ s)).
  - intros c t H Ht. apply H. by right.
  - intros t Ht. destruct (match_paren t) as [n|] eqn:E; [|done].
    by apply match_paren_open in E.
Qed.

Lemma sub_other_id s : Forall (λ c, clean c) s → re_sub match_other (chars " ") s = s.
Proof.
  apply (re_sub_id match_other _ (Forall (λ c, clean c))).
  - intros c t H. by inversion H.
  - intros [|c t] H; [done|]. inversion H; subst. by apply match_other_clean.
Qed.

Lemma sub_other_clean s : Forall (λ c, clean c) (re_sub match_other (chars " ") s).
Proof.
  apply (re_sub_ind match_other (chars " ") (λ _ out, Forall (λ c, clean c) out)).
  - done.
  - intros c t out Hk IH. constructor; [|done]. by eapply match_other_keep.
  - intros c t k out _ IH. by constructor.
Qed.

(** ** Collapsing and trimming white space *)

Lemma match_spaces_Some c s k :
  match_spaces (c :: s) = Some (S k) →
  Char.is_space c = true ∧ k = span Char.is_space s.
Proof.
  unfold match_spaces. simpl. destruct (Char.is_space c); [|done].
  case_decide; [done|]. intros [= <-]. done.
Qed.

Lemma match_spaces_keep c s :
  (∀ k, match_spaces (c :: s) ≠ Some (S k)) → Char.is_space c = false.
Proof.
  unfold match_spaces. simpl. destruct (Char.is_space c); [|done].
  intros H. by destruct (H (span Char.is_space s)).
Qed.

Lemma sub_spaces_shape s :
  let out := re_sub match_spaces (chars " ") s in
  single_spaced out
  ∧ (∀ d r, s = d :: r → Char.is_space d = false → ∃ o, out = d :: o)
  ∧ (s = [] → out = []).
Proof.
  apply (re_sub_ind match_spaces (chars " ") (λ s out,
    single_spaced out
    ∧ (∀ d r, s = d :: r → Char.is_space d = false → ∃ o, out = d :: o)
    ∧ (s = [] → out = []))).
  - done.
  - intros c t out Hk%match_spaces_keep (Hs & _ & _).
    split_and!; [|naive_solver|done].
    simpl. split; [|done]. by rewrite Hk.
  - intros c t k out [Hc ->]%match_spaces_Some (Hs & Hhd & Hnil).
    split_and!; [|intros d r [= -> ->]; congruence|done].
    simpl. split; [|done]. intros _. split; [done|].
    destruct (drop (span Char.is_space t) t) as [|d r] eqn:E.
    + by rewrite Hnil.
    + pose proof (span_stop _ _ _ _ E) as Hd.
      destruct (Hhd d r eq_refl Hd) as [o ->]. rewrite Hd. simpl. tauto.
Qed.

Lemma sub_spaces_id t :
  single_spaced t → re_sub match_spaces (chars " ") t = t.
Proof.
  induction t as [|c t IH]; [done|]. intros [Hc Ht].
  rewrite re_sub_cons. unfold match_spaces. simpl span.
  destruct (Char.is_space c) eqn:E.
  - destruct (Hc I) as [-> Hnext].
    assert (span Char.is_space t = 0) as ->.
    { destruct t as [|d t]; [done|]. simpl. by destruct (Char.is_space d). }
    simpl. f_equal. by apply IH.
  - simpl. f_equal. by apply IH.
Qed.

Lemma single_spaced_app a b :
  single_spaced (a ++ b) → single_spaced a ∧ single_spaced b.
Proof.
  induction a as [|c a IH]; [done|]. simpl. intros [Hc H].
  destruct (IH H) as [Ha Hb]. split_and!; try done.
  intros Hs. destruct (Hc Hs) as [-> Hn]. split; [done|].
  by destruct a.
Qed.

Lemma lstrip_suffix s : ∃ pre, s = pre ++ lstrip s.
Proof.
  induction s as [|c s [pre IH]]; [by exists []|]. simpl.
  destruct (Char.is_space c).
  - exists (c :: pre). simpl. by f_equal.
  - by exists [].
Qed.

Lemma lstrip_head s c r : lstrip s = c :: r → Char.is_space c = false.
Proof.
  induction s as [|d s IH]; simpl; [done|].
  destruct (Char.is_space d) eqn:E; [done|]. by intros [= <- _].
Qed.

Lemma lstrip_id s : (∀ c r, s = c :: r → Char.is_space c = false) → lstrip s = s.
Proof. destruct s as [|c s]; [done|]. intros H. simpl. by rewrite (H c s). Qed.

Lemma strip_infix s : ∃ pre suf, s = pre ++ strip s ++ suf.
Proof.
  unfold strip.
  destruct (lstrip_suffix s) as [pre Hpre].
  destruct (lstrip_suffix (rev (lstrip s))) as [suf Hsuf].
  exists pre, (rev suf).
  rewrite <- rev_app_distr, <- Hsuf, rev_involutive. done.
Qed.

Lemma strip_trimmed s : trimmed (strip s).
Proof.
  unfold strip. split.
  - intros c r E.
    destruct (lstrip_suffix (rev (lstrip s))) as [pre Hpre].
    apply (f_equal (@rev ascii)) in Hpre.
    rewrite rev_involutive, rev_app_distr, E in Hpre.
    by apply lstrip_head in Hpre.
  - intros c r E. apply (f_equal (@rev ascii)) in E.
    rewrite rev_involutive, rev_app_distr in E. by apply lstrip_head in E.
Qed.

Lemma strip_id t : trimmed t → strip t = t.
Proof.
  intros [Hhd Hlast]. unfold strip. rewrite (lstrip_id t Hhd).
  rewrite lstrip_id; [apply rev_involutive|].
  intros c r E. apply (Hlast c (rev r)).
  apply (f_equal (@rev ascii)) in E. by rewrite rev_involutive in E.
Qed.

Lemma strip_Forall (P : ascii → Prop) s : Forall P s → Forall P (strip s).
Proof.
  destruct (strip_infix s) as (pre & suf & E). rewrite E at 1.
  rewrite !Forall_app. tauto.
Qed.

Lemma strip_single_spaced s : single_spaced s → single_spaced (strip s).
Proof.
  destruct (strip_infix s) as (pre & suf & E). rewrite E at 1.
  intros [_ H]%single_spaced_app. by apply single_spaced_app in H as [H _].
Qed.

(** ** Normalized text *)

Lemma normalize_chars_normal s : normal (normalize_chars s).
Proof.
  unfold normalize_chars.
  set (t := re_sub match_other _ _).
  assert (Forall (λ c, clean c) t) as Hclean by apply sub_other_clean.
  destruct (sub_spaces_shape t) as (Hss & _ & _).
  split_and!.
  - apply strip_Forall.
    assert (Forall (λ c, clean c) (re_sub match_spaces (chars " ") t)) as Hc.
    { by apply re_sub_Forall; [repeat constructor|]. }
    revert Hss Hc. generalize (re_sub match_spaces (chars " ") t).
    induction l as [|c l IH]; [done|]. intros [Hc Hl] Hcl.
    inversion Hcl; subst. constructor; [|by apply IH].
    apply clean_norm; [done|]. intros Hs. by destruct (Hc Hs).
  - by apply strip_single_spaced.
  - apply strip_trimmed.
Qed.

Lemma norm_no_colon t : Forall (λ c, Char.is_norm c) t → ":"%char ∉ t.
Proof. rewrite Forall_forall. intros H Hin. by apply H in Hin. Qed.

Lemma norm_no_paren t : Forall (λ c, Char.is_norm c) t → "("%char ∉ t.
Proof. rewrite Forall_forall. intros H Hin. by apply H in Hin. Qed.

Lemma normal_fixed t : normal t → normalize_chars t = t.
Proof.
  intros (Hn & Hss & Htr). unfold normalize_chars.
  assert (map Char.lower t = t) as ->.
  { clear Hss Htr. induction Hn as [|c t Hc _ IH]; [done|].
    simpl. by rewrite lower_norm, IH. }
  rewrite sub_url_id by by apply norm_no_colon.
  rewrite sub_paren_id by by apply norm_no_paren.
  rewrite sub_other_id.
  2:{ eapply Forall_impl; [done|]. intros c. apply norm_clean. }
  rewrite sub_spaces_id by done. by apply strip_id.
Qed.

Lemma chars_str l : chars (str l) = l.
Proof. apply list_ascii_of_string_of_list_ascii. Qed.

Lemma str_chars s : str (chars s) = s.
Proof. apply string_of_list_ascii_of_string. Qed.

(** C9. [normalize] is idempotent, and it maps the sample text of the
    specification to "hello world". *)
Theorem normalize_idempotent :
  (∀ s : string, normalize (normalize s) = normalize s)
  ∧ normalize "HELLO (test) https://x.co WORLD!!" = "hello world".
Proof.
  split; [|by vm_compute].
  intros s. unfold normalize. rewrite chars_str.
  f_equal. apply normal_fixed, normalize_chars_normal.
Qed.

(** ** Splitting into words *)

Lemma split_from_space c cur s :
  Char.is_space c = true → split_from cur (c :: s) = flush cur ++ split s.
Proof. intros H. simpl. rewrite H. by destruct cur. Qed.

Lemma split_from_app_space c cur y z :
  Char.is_space c = true →
  split_from cur (y ++ c :: z) = split_from cur y ++ split z.
Proof.
  intros Hc. revert cur. induction y as [|d y IH]; intros cur.
  - simpl app. rewrite split_from_space by done. by destruct cur.
  - simpl. destruct (Char.is_space d); [|apply IH].
    destruct cur; by rewrite IH.
Qed.

Lemma split_app_space a b : split (a ++ " "%char :: b) = split a ++ split b.
Proof. by apply split_from_app_space. Qed.

Lemma split_from_spaces cur ws :
  Forall (λ c, Char.is_space c) ws → split_from cur ws = flush cur.
Proof.
  intros H. revert cur. induction H as [|c ws Hc _ IH]; intros cur; [done|].
  rewrite split_from_space by by apply Is_true_true.
  unfold split. rewrite IH. apply app_nil_r.
Qed.

Lemma split_from_app_spaces cur y ws :
  Forall (λ c, Char.is_space c) ws → split_from cur (y ++ ws) = split_from cur y.
Proof.
  intros H. destruct H as [|c ws Hc H]; [by rewrite app_nil_r|].
  rewrite split_from_app_space by by apply Is_true_true.
  unfold split. rewrite (split_from_spaces [] ws) by done. apply app_nil_r.
Qed.

Lemma lstrip_spaces s :
  ∃ pre, s = pre ++ lstrip s ∧ Forall (λ c, Char.is_space c) pre.
Proof.
  induction s as [|c s (pre & IH & Hpre)]; [by exists []|]. simpl.
  destruct (Char.is_space c) eqn:E.
  - exists (c :: pre). split; [simpl; by f_equal|].
    constructor; [by rewrite E|done].
  - by exists [].
Qed.

Lemma split_lstrip s : split (lstrip s) = split s.
Proof.
  induction s as [|c s IH]; [done|]. simpl.
  destruct (Char.is_space c) eqn:E; [|done].
  rewrite IH. unfold split at 2. simpl. by rewrite E.
Qed.

Lemma split_strip s : split (strip s) = split s.
Proof.
  unfold strip.
  destruct (lstrip_spaces (rev (lstrip s))) as (pre & E & Hpre).
  apply (f_equal (@rev ascii)) in E.
  rewrite rev_involutive, rev_app_distr in E.
  rewrite <- (split_lstrip s).
  set (t := rev (lstrip (rev (lstrip s)))) in *. rewrite E. unfold split.
  rewrite split_from_app_spaces; [done|]. by apply Forall_rev.
Qed.

Lemma drop_span_lstrip s : drop (span Char.is_space s) s = lstrip s.
Proof.
  induction s as [|c s IH]; [done|]. simpl. by destruct (Char.is_space c).
Qed.

Lemma split_collapse s : split (re_sub match_spaces (chars " ") s) = split s.
Proof.
  unfold split. generalize (@nil ascii). revert s.
  apply (re_sub_ind match_spaces (chars " ") (λ s out,
    ∀ cur, split_from cur out = split_from cur s)).
  - done.
  - intros c t out _ IH cur. simpl. rewrite !IH. by destruct cur.
  - intros c t k out [Hc ->]%match_spaces_Some IH cur.
    change (chars " " ++ out) with (" "%char :: out).
    rewrite !split_from_space by done. unfold split.
    rewrite IH, drop_span_lstrip. f_equal. apply split_lstrip.
Qed.

Lemma normalize_chars_scrub s :
  normalize_chars s = strip (re_sub match_spaces (chars " ") (scrub s)).
Proof. done. Qed.

Lemma split_normalize_chars s : split (normalize_chars s) = split (scrub s).
Proof. by rewrite normalize_chars_scrub, split_strip, split_collapse. Qed.

Lemma split_from_Forall (P : ascii → Prop) cur s :
  Forall P cur → Forall P s → Forall (Forall P) (split_from cur s).
Proof.
  intros Hcur Hs. revert cur Hcur.
  induction Hs as [|c s Hc _ IH]; intros cur Hcur; simpl.
  - destruct cur; [done|]. repeat constructor. by apply Forall_rev.
  - destruct (Char.is_space c).
    + destruct cur; [by apply IH|].
      constructor; [by apply Forall_rev|by apply IH].
    + apply IH. by constructor.
Qed.

Lemma tokenize_scrub text :
  tokenize text = keep_words (str <$> split (scrub (chars text))).
Proof.
  unfold tokenize, words, normalize.
  by rewrite chars_str, split_normalize_chars.
Qed.

Lemma keep_words_filter ws : keep_words ws = filter (λ w, keep_word w) ws.
Proof.
  induction ws as [|w ws IH]; [done|]. simpl. rewrite filter_cons.
  destruct (decide (keep_word w)) as [H|H]; destruct (keep_word w); try done.
  by f_equal.
Qed.

Lemma keep_words_app x y : keep_words (x ++ y) = keep_words x ++ keep_words y.
Proof. by rewrite !keep_words_filter, filter_app. Qed.

(** ** Tokens *)

Lemma words_normalize_norm text w :
  w ∈ words (normalize text) → Forall (λ c, Char.is_norm c) (chars w).
Proof.
  unfold words, normalize. rewrite chars_str.
  intros (cs & -> & Hcs)%list_elem_of_fmap. rewrite chars_str.
  destruct (normalize_chars_normal (chars text)) as (Hn & _ & _).
  pose proof (split_from_Forall _ [] _ (Forall_nil_2 _) Hn) as H.
  rewrite Forall_forall in H. by apply H.
Qed.

Lemma forallb_digit_norm cs :
  Forall (λ c, Char.is_norm c) cs →
  forallb Char.is_digit cs = true ↔ Forall (λ c, Char.is_09 c) cs.
Proof.
  induction 1 as [|c cs Hc _ IH]; [done|]. simpl.
  rewrite andb_true_iff, Forall_cons, IH, (norm_digit c Hc).
  by rewrite Is_true_true.
Qed.

Lemma isdigit_norm w :
  Forall (λ c, Char.is_norm c) (chars w) → isdigit w = true ↔ digits_only w.
Proof.
  unfold isdigit, digits_only. intros Hn.
  assert (w = "" ↔ chars w = []) as Hnil.
  { split; [by intros ->|]. intros E. by rewrite <- (str_chars w), E. }
  pose proof (forallb_digit_norm _ Hn) as Hall.
  destruct (chars w) as [|c cs] eqn:E.
  - split; [done|]. intros [H _]. destruct H. by apply Hnil.
  - rewrite Hall. split; [|tauto]. intros H. split; [|done].
    intros H'. by apply Hnil in H'.
Qed.

Lemma keep_word_content w :
  Forall (λ c, Char.is_norm c) (chars w) → keep_word w ↔ content_word w.
Proof.
  intros Hn. unfold keep_word, content_word.
  rewrite !andb_True, bool_decide_spec, negb_True.
  rewrite (Is_true_true (isdigit w)), (isdigit_norm w Hn).
  rewrite Is_true_true, Nat.ltb_lt. tauto.
Qed.

(** C8. [tokenize] keeps, in order, exactly the white-space separated
    words of the normalized text that are no stop word, are longer than two
    characters and are not made of digits only; the sample sentence of the
    specification gives its two content words. *)
Theorem tokenize_keeps_content_words :
  (∀ text, tokenize text = filter content_word (words (normalize text)))
  ∧ tokenize "The economy grew in Q3" = ["economy"; "grew"]
  ∧ (∀ text w, w ∈ tokenize text →
       (w ∉ STOP) ∧ 2 < String.length w ∧ ¬ digits_only w).
Proof.
  assert (∀ text, tokenize text = filter content_word (words (normalize text)))
    as Hfilter.
  { intros text. unfold tokenize. rewrite keep_words_filter.
    pose proof (words_normalize_norm text) as Hn.
    induction (words (normalize text)) as [|w ws IH]; [done|].
    rewrite !filter_cons, IH by (intros ??; apply Hn; by right).
    assert (keep_word w ↔ content_word w) as Hw.
    { apply keep_word_content, Hn. left. }
    destruct (decide (keep_word w)), (decide (content_word w)); tauto. }
  split_and!; [done|by vm_compute|].
  intros text w. rewrite Hfilter. by intros [H _]%list_elem_of_filter.
Qed.

Lemma tokenize_keeps_content_words_witness :
  ("economy" ∉ STOP) ∧ 2 < String.length "economy" ∧ ¬ digits_only "economy".
Proof.
  apply (proj2 (proj2 tokenize_keeps_content_words) "The economy grew in Q3").
  apply (bool_decide_unpack _). by vm_compute.
Defined.

(** ** Tokens of two texts joined by a space *)

Lemma chars_append a b : chars (a +:+ b) = chars a ++ chars b.
Proof. induction a as [|c a IH]; [done|]. simpl. by f_equal. Qed.

Lemma not_close c : negb (bool_decide (c = ")"%char)) = true ↔ c ≠ ")"%char.
Proof. rewrite negb_true_iff, bool_decide_eq_false. done. Qed.

(** The run of [[^)]*] stops at the first ")" of the text, whatever
    follows the text. *)
Lemma span_close_app s x c r :
  drop (span (λ c, negb (bool_decide (c = ")"%char))) s) s = c :: r →
  span (λ c, negb (bool_decide (c = ")"%char))) (s ++ x)
  = span (λ c, negb (bool_decide (c = ")"%char))) s.
Proof.
  induction s as [|d s IH]; simpl; [done|].
  destruct (negb (bool_decide (d = ")"%char))); simpl; [|done].
  intros H. by rewrite IH.
Qed.

Lemma span_close_all s :
  ")"%char ∉ s →
  drop (span (λ c, negb (bool_decide (c = ")"%char))) s) s = [].
Proof.
  induction s as [|d s IH]; simpl; [done|].
  intros [Hd Hs]%not_elem_of_cons.
  assert (negb (bool_decide (d = ")"%char)) = true) as ->.
  { apply not_close. congruence. }
  simpl. by apply IH.
Qed.

Lemma span_close_None s :
  drop (span (λ c, negb (bool_decide (c = ")"%char))) s) s = [] →
  ")"%char ∉ s.
Proof.
  induction s as [|d s IH]; simpl; [by intros _ ?%elem_of_nil|].
  destruct (negb (bool_decide (d = ")"%char))) eqn:E; simpl; [|done].
  apply not_close in E. intros H [?|?]%elem_of_cons; [congruence|].
  by apply IH.
Qed.

Lemma dangling_cons c s : dangling s → dangling (c :: s).
Proof. simpl. intros H. apply orb_True. by right. Qed.

Lemma dangling_open s : ")"%char ∉ s → dangling ("("%char :: s).
Proof.
  intros H. simpl. apply orb_True. left.
  by rewrite bool_decide_eq_false_2.
Qed.

Lemma dangling_drop k s : dangling (drop k s) → dangling s.
Proof.
  revert k. induction s as [|c s IH]; intros [|k]; simpl; try done.
  intros H. apply orb_True. right. by eapply IH.
Qed.

(** Where no parenthetical span reaches from the first text into the
    second, the spans are removed in each text on its own. *)
Lemma sub_paren_app_space a b :
  ¬ (dangling a ∧ ")"%char ∈ b) →
  re_sub match_paren (chars " ") (a ++ " "%char :: b)
  = re_sub match_paren (chars " ") a
    ++ " "%char :: re_sub match_paren (chars " ") b.
Proof.
  revert a.
  apply (re_sub_ind match_paren (chars " ") (λ a out,
    ¬ (dangling a ∧ ")"%char ∈ b) →
    re_sub match_paren (chars " ") (a ++ " "%char :: b)
    = out ++ " "%char :: re_sub match_paren (chars " ") b)).
  - intros _. simpl. by rewrite re_sub_cons.
  - intros c s out Hno IH Hcond.
    change ((c :: s) ++ " "%char :: b) with (c :: (s ++ " "%char :: b)).
    rewrite re_sub_cons.
    assert (match_paren (c :: (s ++ " "%char :: b)) = None) as ->.
    { simpl. destruct (decide (c = "("%char)) as [->|]; [|done].
      assert (")"%char ∉ s) as Hs.
      { apply span_close_None.
        destruct (drop _ s) as [|x r] eqn:E; [done|].
        destruct (Hno (span (λ c, negb (bool_decide (c = ")"%char))) s + 1)).
        simpl. rewrite E. f_equal. lia. }
      assert (")"%char ∉ b) as Hb.
      { intros Hb. apply Hcond. split; [by apply dangling_open|done]. }
      rewrite span_close_all; [done|].
      rewrite elem_of_app, elem_of_cons. intros [?|[?|?]]; done. }
    rewrite IH; [done|]. intros [Hd Hb]. apply Hcond.
    split; [by apply dangling_cons|done].
  - intros c s k out Hk IH Hcond.
    change ((c :: s) ++ " "%char :: b) with (c :: (s ++ " "%char :: b)).
    rewrite re_sub_cons.
    simpl in Hk. destruct (decide (c = "("%char)) as [->|]; [|done].
    destruct (drop _ s) as [|x r] eqn:E; [done|].
    injection Hk as Hk.
    assert (k = span (λ c, negb (bool_decide (c = ")"%char))) s + 1) as ->
      by lia.
    assert (span (λ c, negb (bool_decide (c = ")"%char))) s + 1 ≤ length s)
      as Hlen.
    { apply (f_equal length) in E. rewrite length_drop in E. simpl in E. lia. }
    assert (match_paren ("("%char :: (s ++ " "%char :: b))
            = Some (S (span (λ c, negb (bool_decide (c = ")"%char))) s + 1)))
      as ->.
    { simpl. rewrite (span_close_app s _ x r E), drop_app_le by lia.
      rewrite E. simpl. f_equal. lia. }
    rewrite drop_app_le by lia. rewrite IH.
    + by rewrite <- app_assoc.
    + intros [Hd Hb]. apply Hcond. split; [|done].
      apply dangling_cons. by eapply dangling_drop.
Qed.

Lemma scrub_app_space a b :
  ¬ (dangling (re_sub match_url (chars " ") (map Char.lower a))
     ∧ ")"%char ∈ re_sub match_url (chars " ") (map Char.lower b)) →
  scrub (a ++ " "%char :: b) = scrub a ++ " "%char :: scrub b.
Proof.
  intros Hcond. unfold scrub.
  rewrite map_app. simpl map. rewrite lower_space.
  rewrite (re_sub_app_space _ match_url_space_local).
  rewrite sub_paren_app_space by done.
  apply (re_sub_app_space _ match_other_space_local).
Qed.

Lemma tokenize_join (t d : option string) :
  ¬ spans_across t d →
  tokenize (or_empty t +:+ " " +:+ or_empty d)
  = tokenize (or_empty t) ++ tokenize (or_empty d).
Proof.
  intros Hcond. rewrite !tokenize_scrub, !chars_append.
  change (chars " " ++ chars (or_empty d)) with (" "%char :: chars (or_empty d)).
  by rewrite scrub_app_space, split_app_space, fmap_app, keep_words_app.
Qed.

Lemma is_low_signal_tokens t d t' d' :
  list_to_set (C:=gset string) (tokenize (or_empty t +:+ " " +:+ or_empty d))
  = list_to_set (tokenize (or_empty t' +:+ " " +:+ or_empty d')) →
  is_low_signal t d = is_low_signal t' d'.
Proof. unfold is_low_signal. by intros ->. Qed.

(** C10, as the code has it.  A parenthetical span may open in one text and
    close in the other, so the order of the two texts matters in general;
    where no span reaches across in either order the classification is
    symmetric, as the tokens of the joined text are then those of the two
    texts. *)
Theorem is_low_signal_symmetric (t d : option string) :
  ¬ spans_across t d → ¬ spans_across d t →
  is_low_signal t d = is_low_signal d t.
Proof.
  intros Htd Hdt. apply is_low_signal_tokens.
  rewrite !tokenize_join, !list_to_set_app_L by done.
  apply (comm_L _).
Qed.

Lemma is_low_signal_symmetric_witness :
  is_low_signal (Some "Lakers win (NBA") (Some "finals recap")
  = is_low_signal (Some "finals recap") (Some "Lakers win (NBA").
Proof.
  apply is_low_signal_symmetric.
  - intros [_ H]. revert H. apply (bool_decide_unpack _). by vm_compute.
  - intros [H _]. revert H. by vm_compute.
Defined.

Example closed_parenthetical_is_symmetric :
  ¬ spans_across (Some "Lakers win (NBA) finals") (Some "Season (recap)")
  ∧ ¬ spans_across (Some "Season (recap)") (Some "Lakers win (NBA) finals").
Proof. split; intros [H _]; revert H; by vm_compute. Qed.

Example stated_counterexample_spans_across :
  spans_across (Some "Lakers win (NBA") (Some "finals) recap").
Proof. split; [by vm_compute|]. apply (bool_decide_unpack _). by vm_compute. Qed.

(** C10, as stated, fails: the tokens of "Lakers win (NBA finals) recap"
    hold one sports word, those of "finals) recap Lakers win (NBA" three. *)
Lemma is_low_signal_not_symmetric :
  is_low_signal (Some "Lakers win (NBA") (Some "finals) recap") = false
  ∧ is_low_signal (Some "finals) recap") (Some "Lakers win (NBA") = true.
Proof. by vm_compute. Qed.

(** ** Signal filter *)

Lemma size_at_least (X : gset string) n :
  n ≤ size X ↔ ∃ l : list string, NoDup l ∧ length l = n ∧ ∀ w, w ∈ l → w ∈ X.
Proof.
  split.
  - intros Hn. exists (take n (elements X)). split_and!.
    + apply (sublist_NoDup _ (elements X));
        [apply NoDup_elements|apply sublist_take].
    + rewrite length_take. unfold size, set_size in Hn. simpl in Hn. lia.
    + intros w Hw. apply elem_of_elements. by eapply subseteq_take.
  - intros (l & Hnd & <- & Hl).
    rewrite <- (size_list_to_set (C:=gset string) l Hnd).
    apply subseteq_size. intros w Hw. apply Hl. by apply elem_of_list_to_set in Hw.
Qed.

Lemma shares_size n tokens lexicon :
  shares n tokens lexicon
  ↔ n ≤ size (list_to_set (C:=gset string) tokens ∩ lexicon).
Proof.
  rewrite size_at_least. unfold shares.
  split; intros (l & ? & ? & H); exists l; split_and!; try done;
    intros w Hw; specialize (H w Hw); set_solver.
Qed.

(** C5. [is_low_signal] holds exactly when the tokens of the title and the
    description joined by a space share two distinct words with the sports
    lexicon, or two with the lifestyle lexicon, or three with the ticker
    lexicon. *)
Theorem is_low_signal_lexicon_overlap (title desc : option string) :
  let tokens := tokenize (or_empty title +:+ " " +:+ or_empty desc) in
  is_low_signal title desc = true
  ↔ shares 2 tokens SPORTS
    ∨ shares 2 tokens LIFESTYLE_LOCAL
    ∨ shares 3 tokens FINANCE_TICKER.
Proof.
  intros tokens. rewrite !shares_size. unfold is_low_signal. fold tokens.
  set (ws := list_to_set (C:=gset string) tokens).
  destruct (2 <=? size (ws ∩ SPORTS)) eqn:E1;
    [apply Nat.leb_le in E1; tauto | apply Nat.leb_gt in E1].
  destruct (2 <=? size (ws ∩ LIFESTYLE_LOCAL)) eqn:E2;
    [apply Nat.leb_le in E2; tauto | apply Nat.leb_gt in E2].
  destruct (3 <=? size (ws ∩ FINANCE_TICKER)) eqn:E3;
    [apply Nat.leb_le in E3; tauto | apply Nat.leb_gt in E3].
  split; [done|]. intros [?|[?|?]]; lia.
Qed.

(** ** The corpus of the paragraph builder *)

Lemma filter_signal rs : filter signal rs = kept rs.
Proof.
  apply list_filter_iff. intros r. unfold signal.
  by destruct (is_low_signal _ _).
Qed.

(** C6. For a feed that is not empty the paragraph is built from the
    clusters of the records that are not low-signal when at least 40 of
    them remain, and from the clusters of the whole feed otherwise. *)
Theorem corpus_is_filtered_from_forty (rs : list Row) :
  rs ≠ [] →
  (40 ≤ length (kept rs) →
     build_clean_paragraph rs
     = narrate (cluster_titles (kept rs) default_threshold))
  ∧ (length (kept rs) < 40 →
     build_clean_paragraph rs
     = narrate (cluster_titles rs default_threshold)).
Proof.
  intros Hrs. destruct rs as [|r rs]; [done|].
  unfold build_clean_paragraph. rewrite filter_signal.
  split; intros Hlen.
  - apply Nat.leb_le in Hlen. by rewrite Hlen.
  - apply Nat.leb_gt in Hlen. by rewrite Hlen.
Qed.

Lemma corpus_is_filtered_from_forty_witness :
  build_clean_paragraph
    (headline "NBA finals season" :: replicate 40 (headline "Navy attack near the border"))
  = narrate (cluster_titles
      (replicate 40 (headline "Navy attack near the border")) default_threshold).
Proof.
  refine (proj1 (corpus_is_filtered_from_forty
    (headline "NBA finals season"
       :: replicate 40 (headline "Navy attack near the border")) _) _).
  - done.
  - vm_compute. lia.
Defined.

Example small_feed_is_not_filtered :
  length (kept [headline "NBA finals season"; headline "Navy attack near the border"]) = 1
  ∧ build_clean_paragraph
      [headline "NBA finals season"; headline "Navy attack near the border"]
    = narrate (cluster_titles
        [headline "NBA finals season"; headline "Navy attack near the border"]
        default_threshold).
Proof. by vm_compute. Qed.

(** ** Sentinel messages *)

Lemma cluster_step_skip th cs r : unclusterable r → cluster_step th cs r = cs.
Proof.
  unfold cluster_step. intros [H|H].
  - by rewrite decide_True.
  - case_decide; [done|]. by rewrite H.
Qed.

Lemma cluster_fold_skip th rs cs :
  Forall unclusterable rs → fold_left (cluster_step th) rs cs = cs.
Proof.
  induction 1 as [|r rs Hr _ IH]; [done|]. simpl.
  by rewrite cluster_step_skip.
Qed.

Lemma cluster_titles_skip th rs :
  Forall unclusterable rs → cluster_titles rs th = [].
Proof.
  intros H. unfold cluster_titles, cluster_loop.
  by rewrite cluster_fold_skip.
Qed.

(** C4. An empty feed gives the "no headlines" message, and a feed in
    which every record is skipped by the clustering gives the
    "insufficient signal" message; both are returned, nothing is raised. *)
Theorem sentinel_messages :
  build_clean_paragraph [] = Ok "No headlines were available to summarize."
  ∧ (∀ rs, rs ≠ [] → Forall unclusterable rs →
       build_clean_paragraph rs
       = Ok "Insufficient signal to produce a coherent summary.").
Proof.
  split; [done|]. intros rs Hrs Hall.
  destruct rs as [|r rs]; [done|]. unfold build_clean_paragraph.
  set (rs' := r :: rs) in *.
  assert (Forall unclusterable (filter signal rs')) as Hf.
  { rewrite Forall_forall in Hall. apply Forall_forall.
    intros x [_ Hx]%list_elem_of_filter. by apply Hall. }
  destruct (40 <=? _); by rewrite cluster_titles_skip.
Qed.

Lemma sentinel_messages_witness :
  build_clean_paragraph
    [ headline "The of and"; headline "  ";
      {| title := Null; description := Text "Navy attack" |} ]
  = Ok "Insufficient signal to produce a coherent summary.".
Proof.
  apply (proj2 sentinel_messages); [done|].
  apply (bool_decide_unpack _). by vm_compute.
Defined.

(** ** Fewer than three clusters *)

Lemma choose_from_length clusters chosen seen :
  length (choose_from clusters chosen seen) ≤ length chosen + length clusters.
Proof.
  revert chosen seen.
  induction clusters as [|c rest IH]; intros chosen seen; simpl; [lia|].
  case_decide.
  - case_decide; [rewrite length_app in *; simpl in *; lia|].
    etrans; [apply IH|]. rewrite length_app. simpl. lia.
  - case_decide; [lia|]. etrans; [apply IH|]. lia.
Qed.

Lemma mapM_result_length {A B} (f : A → result B) l ys :
  mapM f l = Ok ys → length ys = length l.
Proof.
  revert ys. induction l as [|x l IH]; intros ys; simpl.
  - by intros [= <-].
  - destruct (f x) as [y|]; simpl; [|done].
    destruct (mapM f l) as [k|]; simpl; [|done].
    intros [= <-]. simpl. f_equal. by apply IH.
Qed.

Lemma narrate_short clusters :
  0 < length clusters < 3 → narrate clusters = IndexError.
Proof.
  intros Hlen. unfold narrate.
  destruct clusters as [|c0 cs]; [simpl in Hlen; lia|].
  set (labelled := (λ c, (c, label_cluster c)) <$> (c0 :: cs)).
  assert (length labelled < 3) as Hlab.
  { unfold labelled. rewrite length_fmap. lia. }
  assert (length (choose_from labelled [] ∅) ≤ length labelled) as Hch
    by apply (choose_from_length labelled [] ∅).
  assert ((length (choose_from labelled [] ∅) <? 3) = true) as ->
    by (apply Nat.ltb_lt; lia).
  set (chosen := take 3 labelled).
  assert (length chosen < 3) as Hc.
  { unfold chosen. rewrite length_take. lia. }
  destruct (mapM _ chosen) as [lines|] eqn:E; [|done].
  apply mapM_result_length in E. simpl.
  assert (index lines 2 = IndexError) as H2.
  { unfold index. rewrite lookup_ge_None_2; [done|lia]. }
  destruct (index lines 0) as [l0|]; [|done]. simpl.
  destruct (index lines 1) as [l1|]; [|done]. simpl.
  by rewrite H2.
Qed.

Lemma build_clean_paragraph_corpus rs :
  rs ≠ [] →
  build_clean_paragraph rs = narrate (cluster_titles (corpus rs) default_threshold).
Proof. by destruct rs. Qed.

(** C1: what the code does.  With one or two clusters [lines] has fewer
    than three entries and the template raises [IndexError]; no paragraph
    is returned. *)
Theorem short_feed_raises (rs : list Row) :
  rs ≠ [] →
  0 < length (cluster_titles (corpus rs) default_threshold) < 3 →
  build_clean_paragraph rs = IndexError.
Proof.
  intros Hrs Hlen. rewrite build_clean_paragraph_corpus by done.
  by apply narrate_short.
Qed.

Lemma short_feed_raises_witness :
  build_clean_paragraph
    [ headline "Navy attack near the border";
      headline "Inflation data lifts markets" ] = IndexError.
Proof.
  apply short_feed_raises; [done|]. vm_compute. lia.
Defined.

(** ** Topic labels *)

Lemma label_scan_spec counts lexicon best :
  let res := label_scan counts lexicon best in
  best.2 ≤ res.2
  ∧ (∀ j t w, lexicon !! j = Some (t, w) → topic_score counts w ≤ res.2)
  ∧ ((res = best
      ∧ ∀ j t w, lexicon !! j = Some (t, w) → topic_score counts w ≤ best.2)
     ∨ (∃ i t w,
          lexicon !! i = Some (t, w)
          ∧ res = (Some t, topic_score counts w)
          ∧ best.2 < topic_score counts w
          ∧ ∀ j t' w', j < i → lexicon !! j = Some (t', w') →
              topic_score counts w' < topic_score counts w)).
Proof.
  revert best. induction lexicon as [|[t0 w0] rest IH]; intros best; simpl.
  - split_and!; [done|done|]. left. by split.
  - set (s0 := topic_score counts w0).
    set (best' := if best.2 <? s0 then (Some t0, s0) else best).
    destruct (IH best') as (Hle & Hall & Hcase).
    set (res := label_scan counts rest best') in *.
    assert (best.2 ≤ best'.2 ∧ s0 ≤ best'.2) as [Hb Hs].
    { unfold best'. destruct (best.2 <? s0) eqn:E; simpl.
      - apply Nat.ltb_lt in E. lia.
      - apply Nat.ltb_ge in E. lia. }
    split_and!.
    + lia.
    + intros [|j] t w; simpl; [intros [= <- <-]; fold s0; lia|apply Hall].
    + unfold best' in Hcase, Hle, Hs, Hb.
      destruct (best.2 <? s0) eqn:E;
        [apply Nat.ltb_lt in E|apply Nat.ltb_ge in E]; simpl in *.
      * right. destruct Hcase as [[Hres Hrest]|(i & t & w & Hi & Hres & Hlt & Hbefore)].
        -- exists 0, t0, w0. split_and!; try done. intros; lia.
        -- exists (S i), t, w. split_and!; try done; [lia|].
           intros [|j] t' w' Hj; simpl; [intros [= <- <-]; done|].
           apply Hbefore. lia.
      * destruct Hcase as [[Hres Hrest]|(i & t & w & Hi & Hres & Hlt & Hbefore)].
        -- left. split; [done|].
           intros [|j] t w; simpl; [intros [= <- <-]; done|apply Hrest].
        -- right. exists (S i), t, w. split_and!; try done.
           intros [|j] t' w' Hj; simpl; [intros [= <- <-]; fold s0; lia|].
           apply Hbefore. lia.
Qed.

Lemma topic_names t w :
  (t, w) ∈ TOPIC_LEXICON → t ≠ "" ∧ t ≠ "Other".
Proof.
  revert t w.
  assert (Forall (λ e : string * list string, e.1 ≠ "" ∧ e.1 ≠ "Other")
            TOPIC_LEXICON) as H.
  { apply (bool_decide_unpack _). by vm_compute. }
  rewrite Forall_forall in H. intros t w Hin. apply (H _ Hin).
Qed.

Lemma topic_score_empty words : topic_score [] words = 0.
Proof.
  unfold topic_score. induction words as [|w ws IH]; [done|].
  transitivity (0 + sum_list (counts_get [] <$> ws)); [done|by rewrite IH].
Qed.

(** C7. [label_cluster] returns the first topic of the table whose score,
    the sum of the counts of its marker words, is the highest, when that
    score is positive; it returns "Other" exactly when every score is 0, as
    for an empty counter. *)
Theorem label_cluster_first_best (cluster : Cluster) :
  let counts := tok_counts cluster in
  (∀ i topic score, first_best_topic counts i topic score → 0 < score →
     label_cluster cluster = topic)
  ∧ (label_cluster cluster = "Other"
     ↔ ∀ t w, (t, w) ∈ TOPIC_LEXICON → topic_score counts w = 0)
  ∧ (counts = [] → label_cluster cluster = "Other").
Proof.
  intros counts. unfold label_cluster, label_counts. fold counts.
  pose proof (label_scan_spec counts TOPIC_LEXICON (None, 0)) as Hspec.
  cbv zeta in Hspec.
  set (res := label_scan counts TOPIC_LEXICON (None, 0)) in *.
  destruct Hspec as (_ & Hall & Hcase). cbn [snd] in Hcase.
  assert ((res.1 = None ∧ ∀ t w, (t, w) ∈ TOPIC_LEXICON → topic_score counts w = 0)
          ∨ (∃ i t w, TOPIC_LEXICON !! i = Some (t, w) ∧ res.1 = Some t
               ∧ 0 < topic_score counts w
               ∧ first_best_topic counts i t (topic_score counts w))) as Hres.
  { destruct Hcase as [[-> Hz]|(i & t & w & Hi & Hr & Hpos & Hbefore)].
    - left. split; [done|]. intros t w (j & Hj)%list_elem_of_lookup.
      specialize (Hz _ _ _ Hj). lia.
    - right. exists i, t, w. split_and!; try done; [by rewrite Hr|].
      exists w. split_and!; try done. intros j t' w' Hj. split.
      + specialize (Hall _ _ _ Hj). by rewrite Hr in Hall.
      + intros Hlt. by eapply Hbefore. }
  assert ((∀ t w, (t, w) ∈ TOPIC_LEXICON → topic_score counts w = 0) →
          res.1 = None) as Hnone.
  { intros Hz. destruct Hres as [[? _]|(i & t1 & w1 & Hi & _ & Hpos & _)]; [done|].
    apply list_elem_of_lookup_2 in Hi. specialize (Hz _ _ Hi). lia. }
  split_and!.
  - intros i topic score (words & Hi & -> & Hbest) Hpos.
    destruct Hres as [[_ Hz]|(i' & t' & w' & Hi' & -> & Hpos' & (w'' & Hi'' & _ & Hbest'))].
    { apply list_elem_of_lookup_2 in Hi. specialize (Hz _ _ Hi). lia. }
    assert (i = i') as <-.
    { destruct (Hbest _ _ _ Hi') as [Hle Hlt].
      destruct (Hbest' _ _ _ Hi) as [Hle' Hlt'].
      destruct (Nat.lt_trichotomy i i') as [?|[?|?]]; [|done|];
        [specialize (Hlt' ltac:(done))|specialize (Hlt ltac:(done))]; lia. }
    rewrite Hi in Hi'. injection Hi' as <- <-.
    apply list_elem_of_lookup_2, topic_names in Hi as [? ?].
    by rewrite decide_False.
  - split.
    + intros Hother.
      destruct Hres as [[_ Hz]|(i' & t' & w' & Hi' & E & _)]; [done|].
      rewrite E in Hother.
      apply list_elem_of_lookup_2, topic_names in Hi' as [? ?].
      by rewrite decide_False in Hother.
    + intros Hz. by rewrite (Hnone Hz).
  - intros E. rewrite Hnone; [done|]. intros t w _. rewrite E.
    apply topic_score_empty.
Qed.

(** ** Token counters *)

Lemma counts_get_incr w c x :
  counts_get (counter_incr w c) x
  = counts_get c x + (if decide (x = w) then 1 else 0).
Proof.
  induction c as [|[k n] c IH]; simpl.
  - repeat case_decide; congruence.
  - destruct (decide (k = w)) as [->|Hkw]; simpl.
    + repeat case_decide; try congruence; lia.
    + rewrite IH. repeat case_decide; try congruence; lia.
Qed.

Lemma counts_get_update c tks x :
  counts_get (counter_update c tks) x = counts_get c x + occurrences x tks.
Proof.
  unfold counter_update, occurrences. revert c.
  induction tks as [|w tks IH]; intros c; simpl; [lia|].
  rewrite IH, counts_get_incr, filter_cons.
  repeat case_decide; simpl; try congruence; lia.
Qed.

(** ** The best matching cluster *)

Lemma Qltb_lt x y : Qltb x y = true ↔ (x < y)%Q.
Proof.
  unfold Qltb. rewrite negb_true_iff, <- not_true_iff_false, Qle_bool_iff.
  split; [apply Qnot_le_lt|apply Qlt_not_le].
Qed.

Lemma Qltb_ge x y : Qltb x y = false ↔ (y <= x)%Q.
Proof.
  unfold Qltb. by rewrite negb_false_iff, Qle_bool_iff.
Qed.

Lemma best_match_from_spec tks i0 cs best :
  let res := best_match_from tks i0 cs best in
  (best.2 <= res.2)%Q
  ∧ (∀ j c, cs !! j = Some c → (similarity tks c <= res.2)%Q)
  ∧ ((res = best
      ∧ ∀ j c, cs !! j = Some c → (similarity tks c <= best.2)%Q)
     ∨ (∃ j c,
          cs !! j = Some c
          ∧ res = (Some (i0 + j), similarity tks c)
          ∧ (best.2 < similarity tks c)%Q
          ∧ ∀ j' c', j' < j → cs !! j' = Some c' →
              (similarity tks c' < similarity tks c)%Q)).
Proof.
  revert i0 best. induction cs as [|c0 cs IH]; intros i0 best; simpl.
  - split_and!; [apply Qle_refl|done|]. left. by split.
  - fold (similarity tks c0). set (s0 := similarity tks c0).
    set (best' := if Qltb best.2 s0 then (Some i0, s0) else best).
    destruct (IH (S i0) best') as (Hle & Hall & Hcase).
    set (res := best_match_from tks (S i0) cs best') in *.
    assert ((best.2 <= best'.2)%Q ∧ (s0 <= best'.2)%Q) as [Hb Hs].
    { unfold best'. destruct (Qltb best.2 s0) eqn:E; simpl.
      - apply Qltb_lt in E. split; [by apply Qlt_le_weak|apply Qle_refl].
      - apply Qltb_ge in E. split; [apply Qle_refl|done]. }
    split_and!.
    + by eapply Qle_trans.
    + intros [|j] c; simpl; [intros [= <-]; by eapply Qle_trans|apply Hall].
    + unfold best' in Hcase, Hle, Hs, Hb.
      destruct (Qltb best.2 s0) eqn:E;
        [apply Qltb_lt in E|apply Qltb_ge in E]; simpl in *.
      * right.
        destruct Hcase as [[Hres Hrest]|(j & c & Hj & Hres & Hlt & Hbefore)].
        -- exists 0, c0. rewrite Nat.add_0_r. split_and!; try done. intros; lia.
        -- exists (S j), c. rewrite Nat.add_succ_r. split_and!; try done.
           ++ by eapply Qlt_trans.
           ++ intros [|j'] c' Hj'; simpl; [intros [= <-]; done|].
              apply Hbefore. lia.
      * destruct Hcase as [[Hres Hrest]|(j & c & Hj & Hres & Hlt & Hbefore)].
        -- left. split; [done|].
           intros [|j] c; simpl; [intros [= <-]; done|apply Hrest].
        -- right. exists (S j), c. rewrite Nat.add_succ_r.
           split_and!; try done.
           intros [|j'] c' Hj'; simpl;
             [intros [= <-]; by eapply Qle_lt_trans|].
           apply Hbefore. lia.
Qed.

(** What [assign] does, in terms of the best similarity. *)
Lemma assign_rule th clusters r :
  assignment_rule (λ s, (0 < s)%Q ∧ (th <= s)%Q) clusters r
    (assign th clusters r (tokenize (stripped_title r))).
Proof.
  unfold assignment_rule, assign, best_match.
  set (tks := tokenize (stripped_title r)).
  pose proof (best_match_from_spec tks 0 clusters (None, 0%Q)) as Hspec.
  cbv zeta in Hspec.
  destruct (best_match_from tks 0 clusters (None, 0%Q)) as [best_i best_sim].
  destruct Hspec as (_ & Hall & Hcase). cbn [snd] in *.
  destruct Hcase as [[[= -> ->] Hz]|(j & c & Hj & [= -> ->] & Hpos & Hbefore)].
  - right. split; [|done]. intros i c [Hi _] [Hpos _].
    specialize (Hz _ _ Hi). by apply Qlt_not_le in Hpos.
  - assert (earliest_best tks clusters j c) as Hbest.
    { split; [done|]. intros j' c' Hj'. split; [by eapply Hall|].
      intros Hlt. by eapply Hbefore. }
    simpl. destruct (Qle_bool th (similarity tks c)) eqn:E.
    + left. exists j, c. split_and!; try done. by apply Qle_bool_iff.
    + right. split; [|done]. intros i c' [Hi Hmax] [_ Hth].
      destruct (Hmax _ _ Hj) as [Hle _].
      assert (Qle_bool th (similarity tks c) = true); [|congruence].
      apply Qle_bool_iff. eapply Qle_trans; [done|].
      destruct Hbest as [_ Hmax']. by apply (Hmax' i c').
Qed.

Lemma cluster_step_clusterable th clusters r :
  ¬ unclusterable r →
  cluster_step th clusters r
  = assign th clusters r (tokenize (stripped_title r)).
Proof.
  unfold unclusterable, cluster_step. intros H.
  case_decide; [tauto|].
  destruct (tokenize (stripped_title r)) eqn:E; [tauto|done].
Qed.

Lemma cluster_loop_snoc th rs r :
  cluster_loop th (rs ++ [r]) = cluster_step th (cluster_loop th rs) r.
Proof. unfold cluster_loop. by rewrite fold_left_app. Qed.

(** C2, as the code has it.  The records are taken one at a time in the
    given order; a record with title tokens joins the earliest cluster of
    highest similarity exactly when that similarity is positive and reaches
    the threshold, its tokens being added to the counts of that cluster;
    otherwise it founds a new cluster of its own. *)
Theorem cluster_titles_greedy_assignment (th : Q) :
  cluster_loop th [] = []
  ∧ (∀ rs r, cluster_loop th (rs ++ [r]) = cluster_step th (cluster_loop th rs) r)
  ∧ (∀ clusters r, ¬ unclusterable r →
       assignment_rule (λ s, (0 < s)%Q ∧ (th <= s)%Q) clusters r
         (cluster_step th clusters r))
  ∧ (∀ r tks c w,
       rows (join r tks c) = rows c ++ [r]
       ∧ counts_get (tok_counts (join r tks c)) w
         = counts_get (tok_counts c) w + occurrences w tks)
  ∧ (∀ r tks w,
       rows (singleton_cluster r tks) = [r]
       ∧ counts_get (tok_counts (singleton_cluster r tks)) w = occurrences w tks).
Proof.
  split_and!.
  - done.
  - apply cluster_loop_snoc.
  - intros clusters r Hr. rewrite cluster_step_clusterable by done.
    apply assign_rule.
  - intros r tks c w. split; [done|]. apply counts_get_update.
  - intros r tks w. split; [done|]. simpl. unfold counter_of.
    by rewrite counts_get_update.
Qed.

Lemma cluster_titles_greedy_assignment_witness :
  assignment_rule (λ s, (0 < s)%Q ∧ (1 # 3 <= s)%Q)
    [singleton_cluster (headline "Navy attack near the border")
       ["navy"; "attack"; "near"; "border"]]
    (headline "Border attack")
    (cluster_step (1 # 3)
       [singleton_cluster (headline "Navy attack near the border")
          ["navy"; "attack"; "near"; "border"]]
       (headline "Border attack")).
Proof.
  apply (cluster_titles_greedy_assignment (1 # 3)).
  apply (bool_decide_unpack _). by vm_compute.
Defined.

(** C2, as stated, fails at threshold 0: the best similarity of "Storm
    warning" to the one cluster of "Economy grew" is 0, which reaches the
    threshold, yet the record does not join that cluster. *)
Lemma threshold_zero_counterexample :
  cluster_loop 0 [headline "Economy grew"]
  = [singleton_cluster (headline "Economy grew") ["economy"; "grew"]]
  ∧ (similarity (tokenize (stripped_title (headline "Storm warning")))
       (singleton_cluster (headline "Economy grew") ["economy"; "grew"]) == 0)%Q
  ∧ cluster_step 0 (cluster_loop 0 [headline "Economy grew"])
      (headline "Storm warning")
    = cluster_loop 0 [headline "Economy grew"]
      ++ [singleton_cluster (headline "Storm warning") ["storm"; "warning"]]
  ∧ ¬ assignment_rule (λ s, (0 <= s)%Q)
        (cluster_loop 0 [headline "Economy grew"]) (headline "Storm warning")
        (cluster_step 0 (cluster_loop 0 [headline "Economy grew"])
           (headline "Storm warning")).
Proof.
  set (a := headline "Economy grew"). set (b := headline "Storm warning").
  set (clusters := cluster_loop 0 [a]).
  assert (clusters = [singleton_cluster a ["economy"; "grew"]]) as Hcs
    by by vm_compute.
  assert (cluster_step 0 clusters b
          = clusters ++ [singleton_cluster b ["storm"; "warning"]]) as Hstep
    by by vm_compute.
  split_and!; [done|by vm_compute|done|].
  rewrite Hstep, Hcs. intros [(i & c & _ & _ & Heq)|[Hno _]].
  - apply (f_equal length) in Heq. rewrite length_alter in Heq. done.
  - apply (Hno 0 (singleton_cluster a ["economy"; "grew"])).
    + split; [done|]. intros [|j] c'; simpl; [|done].
      intros [= <-]. split; [apply Qle_refl|lia].
    + by vm_compute.
Qed.

(** ** Stable sorting *)

Section stable_sort.
Context {A : Type} (key : A → nat).

(** The order of a sort by decreasing key. *)
Let before (x y : A) : bool := key y <=? key x.

Lemma insert_by_perm x l : insert_by before x l ≡ₚ x :: l.
Proof.
  induction l as [|y l IH]; [done|]. simpl.
  destruct (before x y); [done|]. rewrite IH. apply Permutation_swap.
Qed.

Lemma stable_sort_perm l : stable_sort before l ≡ₚ l.
Proof.
  induction l as [|x l IH]; [done|]. simpl.
  by rewrite insert_by_perm, IH.
Qed.

Lemma insert_by_sorted x l :
  StronglySorted (λ a b, key b ≤ key a) l →
  StronglySorted (λ a b, key b ≤ key a) (insert_by before x l).
Proof.
  induction 1 as [|y l Hl IH Hy]; simpl; [by repeat constructor|].
  unfold before at 1. destruct (key y <=? key x) eqn:E.
  - apply Nat.leb_le in E. constructor; [by constructor|].
    constructor; [done|]. eapply Forall_impl; [done|]. simpl. lia.
  - apply Nat.leb_gt in E. constructor; [done|].
    rewrite insert_by_perm. constructor; [lia|done].
Qed.

Lemma stable_sort_sorted l :
  StronglySorted (λ a b, key b ≤ key a) (stable_sort before l).
Proof.
  induction l as [|x l IH]; simpl; [constructor|by apply insert_by_sorted].
Qed.

(** Elements of equal key keep their order. *)
Lemma insert_by_stable n x l :
  filter (λ a, key a = n) (insert_by before x l)
  = filter (λ a, key a = n) (x :: l).
Proof.
  induction l as [|y l IH]; [done|]. simpl.
  unfold before at 1. destruct (key y <=? key x) eqn:E; [done|].
  apply Nat.leb_gt in E.
  rewrite (filter_cons _ y), IH, !filter_cons.
  repeat case_decide; try done; lia.
Qed.

Lemma stable_sort_stable n l :
  filter (λ a, key a = n) (stable_sort before l) = filter (λ a, key a = n) l.
Proof.
  induction l as [|x l IH]; [done|]. simpl.
  by rewrite insert_by_stable, !filter_cons, IH.
Qed.
End stable_sort.

(** ** Invariants of the clustering *)

Lemma members_app cs1 cs2 : members (cs1 ++ cs2) = members cs1 ++ members cs2.
Proof. unfold members. by rewrite fmap_app, concat_app. Qed.

Lemma members_alter_join r tks i c cs :
  cs !! i = Some c → members (alter (join r tks) i cs) ≡ₚ r :: members cs.
Proof.
  revert i. induction cs as [|c0 cs IH]; intros [|i]; simpl; try done.
  - intros [= ->]. unfold members. simpl.
    rewrite <- app_assoc. simpl. by rewrite <- Permutation_middle.
  - intros Hi. unfold members in *. simpl. rewrite (IH _ Hi).
    by rewrite <- Permutation_middle.
Qed.

Lemma members_perm cs1 cs2 : cs1 ≡ₚ cs2 → members cs1 ≡ₚ members cs2.
Proof.
  unfold members. induction 1; simpl; try done.
  - by f_equiv.
  - rewrite !app_assoc. f_equiv. apply Permutation_app_comm.
  - by etrans.
Qed.

Lemma members_length cs : length (members cs) = sum_list (cluster_size <$> cs).
Proof.
  unfold members. induction cs as [|c cs IH]; [done|]. rewrite !fmap_cons.
  change (concat (rows c :: (rows <$> cs))) with (rows c ++ concat (rows <$> cs)).
  by rewrite length_app, IH.
Qed.

(** Every clusterable record either joins a cluster that exists or founds
    one. *)
Lemma assign_cases th cs r tks :
  assign th cs r tks = cs ++ [singleton_cluster r tks]
  ∨ ∃ i c, cs !! i = Some c ∧ assign th cs r tks = alter (join r tks) i cs.
Proof.
  unfold assign, best_match.
  pose proof (best_match_from_spec tks 0 cs (None, 0%Q)) as Hspec.
  cbv zeta in Hspec.
  destruct (best_match_from tks 0 cs (None, 0%Q)) as [best_i best_sim].
  destruct Hspec as (_ & _ & [[[= -> ->] _]|(j & c & Hj & [= -> ->] & _)]).
  - by left.
  - simpl. destruct (Qle_bool th (similarity tks c)); [|by left].
    right. by exists j, c.
Qed.

Lemma cluster_step_members th cs r :
  members (cluster_step th cs r) ≡ₚ members cs ++ clusterable [r].
Proof.
  unfold clusterable. rewrite filter_cons, filter_nil.
  destruct (decide (¬ unclusterable r)) as [Hr|Hr].
  - rewrite cluster_step_clusterable by done.
    destruct (assign_cases th cs r (tokenize (stripped_title r)))
      as [->|(i & c & Hi & ->)].
    + by rewrite members_app.
    + rewrite members_alter_join by done. apply Permutation_cons_append.
  - rewrite cluster_step_skip, app_nil_r; [done|].
    by destruct (decide (unclusterable r)).
Qed.

Lemma cluster_step_nonempty th cs r :
  Forall (λ c, rows c ≠ []) cs →
  Forall (λ c, rows c ≠ []) (cluster_step th cs r).
Proof.
  intros Hcs. destruct (decide (unclusterable r)) as [Hr|Hr].
  - by rewrite cluster_step_skip.
  - rewrite cluster_step_clusterable by done.
    destruct (assign_cases th cs r (tokenize (stripped_title r)))
      as [->|(i & c & Hi & ->)].
    + apply Forall_app. split; [done|]. by repeat constructor.
    + apply Forall_alter; [done|]. intros c' _ _. simpl. by destruct (rows c').
Qed.

Lemma cluster_fold_invariants th rs cs :
  Forall (λ c, rows c ≠ []) cs →
  members (fold_left (cluster_step th) rs cs) ≡ₚ members cs ++ clusterable rs
  ∧ Forall (λ c, rows c ≠ []) (fold_left (cluster_step th) rs cs).
Proof.
  revert cs. induction rs as [|r rs IH]; intros cs Hcs; simpl.
  - by rewrite app_nil_r.
  - destruct (IH (cluster_step th cs r)) as [Hm Hne];
      [by apply cluster_step_nonempty|].
    split; [|done]. rewrite Hm, cluster_step_members.
    rewrite <- app_assoc. f_equiv. unfold clusterable.
    by rewrite <- filter_app.
Qed.

Lemma elem_of_concat {X} (x : X) (ls : list (list X)) :
  x ∈ concat ls ↔ ∃ l, x ∈ l ∧ l ∈ ls.
Proof.
  induction ls as [|l0 ls IH]; simpl.
  - split; [by intros ?%elem_of_nil|]. by intros (l & _ & ?%elem_of_nil).
  - rewrite elem_of_app, IH. split.
    + intros [?|(l & ? & ?)]; [exists l0|exists l]; split; try done;
        [left|by right].
    + intros (l & Hx & [->|?]%elem_of_cons); [by left|right; by exists l].
Qed.

Lemma concat_disjoint {X} (ls : list (list X)) i j a b x :
  NoDup (concat ls) → ls !! i = Some a → ls !! j = Some b →
  x ∈ a → x ∈ b → i = j.
Proof.
  revert i j. induction ls as [|l ls IH]; intros i j; [done|]. simpl.
  intros (Hl & Hdisj & Hls)%NoDup_app Hi Hj Ha Hb.
  destruct i as [|i], j as [|j]; simpl in *; simplify_eq; try done.
  - destruct (Hdisj x Ha). apply elem_of_concat.
    exists b. split; [done|]. by eapply list_elem_of_lookup_2.
  - destruct (Hdisj x Hb). apply elem_of_concat.
    exists a. split; [done|]. by eapply list_elem_of_lookup_2.
  - f_equal. by eapply IH.
Qed.

(** C3. After [cluster_titles] the clusters hold exactly the records whose
    title has tokens, each once; the sizes add up to the number of these
    records; no cluster is empty; skipped records are in no cluster; and
    the clusters stand by decreasing size, those of equal size in the order
    of their creation. *)
Theorem cluster_titles_partition (rs : list Row) (th : Q) :
  let out := cluster_titles rs th in
  members out ≡ₚ clusterable rs
  ∧ (∀ r, r ∈ rs → ¬ unclusterable r → ∃ c, c ∈ out ∧ r ∈ rows c)
  ∧ (NoDup rs → ∀ i j ci cj r,
       out !! i = Some ci → out !! j = Some cj →
       r ∈ rows ci → r ∈ rows cj → i = j)
  ∧ sum_list (cluster_size <$> out) = length (clusterable rs)
  ∧ Forall (λ c, rows c ≠ []) out
  ∧ (∀ r c, unclusterable r → c ∈ out → r ∉ rows c)
  ∧ StronglySorted (λ c1 c2, cluster_size c2 ≤ cluster_size c1) out
  ∧ out ≡ₚ cluster_loop th rs
  ∧ (∀ n, filter (λ c, cluster_size c = n) out
          = filter (λ c, cluster_size c = n) (cluster_loop th rs)).
Proof.
  intros out.
  assert (out ≡ₚ cluster_loop th rs) as Hperm
    by apply (stable_sort_perm cluster_size).
  destruct (cluster_fold_invariants th rs [] (Forall_nil_2 _)) as [Hm Hne].
  fold (cluster_loop th rs) in Hm, Hne. simpl in Hm.
  assert (members out ≡ₚ clusterable rs) as Hmem
    by by rewrite (members_perm _ _ Hperm).
  assert (∀ r c, c ∈ out → r ∈ rows c → r ∈ clusterable rs) as Hin.
  { intros r c Hc Hr. rewrite <- Hmem. apply elem_of_concat.
    exists (rows c). split; [done|]. by apply list_elem_of_fmap_2. }
  split_and!.
  - done.
  - intros r Hr Hcl.
    assert (r ∈ members out) as (l & Hl & (c & -> & Hc)%list_elem_of_fmap)%elem_of_concat.
    { rewrite Hmem. by apply list_elem_of_filter. }
    by exists c.
  - intros Hnd i j ci cj r Hi Hj Hri Hrj.
    apply (concat_disjoint (rows <$> out) i j (rows ci) (rows cj) r);
      try done; try (by rewrite list_lookup_fmap, ?Hi, ?Hj).
    fold (members out). rewrite Hmem. by apply NoDup_filter.
  - by rewrite <- members_length, Hmem.
  - by rewrite Hperm.
  - intros r c Hr Hc Hrc.
    by apply Hin, list_elem_of_filter in Hrc as [? _].
  - apply (stable_sort_sorted cluster_size).
  - done.
  - intros n. apply (stable_sort_stable cluster_size).
Qed.

Lemma cluster_titles_partition_witness :
  ∃ c, c ∈ cluster_titles
             [ headline "Navy attack near the border"; headline "The of and";
               headline "Border attack" ] default_threshold
       ∧ headline "Border attack" ∈ rows c.
Proof.
  pose proof (cluster_titles_partition
    [ headline "Navy attack near the border"; headline "The of and";
      headline "Border attack" ] default_threshold) as H.
  cbv zeta in H. destruct H as (_ & H & _). apply H.
  - apply (bool_decide_unpack _). by vm_compute.
  - apply (bool_decide_unpack _). by vm_compute.
Defined.

Lemma label_cluster_first_best_witness :
  label_cluster {| rows := []; tok_counts := [("vote", 1); ("war", 1)] |}
  = "Geopolitics & security".
Proof.
  pose proof (label_cluster_first_best
    {| rows := []; tok_counts := [("vote", 1); ("war", 1)] |}) as H.
  cbv zeta in H. destruct H as (H & _).
  apply (H 0 "Geopolitics & security" 1); [|lia].
  eexists. split_and!; [reflexivity|by vm_compute|].
  intros [|[|[|[|[|[|j]]]]]] t w; simpl; intros [= <- <-]; vm_compute; lia.
Defined.

(** ** The pipeline on small feeds *)

Example three_stories :
  build_clean_paragraph
    [ headline "Navy attack near the border";
      headline "Inflation data lifts markets";
      headline "Flood and storm damage spreads" ]
  = Ok ("The current headlines point to several parallel developments. "
        +:+ "Geopolitics & security: Navy attack near the border. "
        +:+ "Economy & markets: Inflation data lifts markets. "
        +:+ "Climate & disasters: Flood and storm damage spreads. "
        +:+ "Taken together, the feed reflects a dispersed news cycle rather than a single dominant global event.").
Proof. by vm_compute. Qed.

Example one_story :
  build_clean_paragraph [ headline "Navy attack near the border" ] = IndexError.
Proof. by vm_compute. Qed.

Example two_records_one_cluster :
  cluster_titles
    [ headline "Navy attack near the border"; headline "Border attack" ]
    default_threshold
  = [ {| rows := [ headline "Navy attack near the border";
                   headline "Border attack" ];
         tok_counts := [("navy", 1); ("attack", 2); ("near", 1); ("border", 2)] |} ].
Proof. by vm_compute. Qed.

Example normalize_unmatched_paren :
  normalize "Budget (draft vote" = "budget draft vote"
  ∧ normalize "see http://a.b/c?d=(e) now" = "see now".
Proof. by vm_compute. Qed.

Example most_common_keeps_insertion_order :
  most_common 2 [("navy", 1); ("attack", 2); ("near", 1); ("border", 2)]
  = [("attack", 2); ("border", 2)].
Proof. by vm_compute. Qed.

(** * Further properties of the pipeline *)

(** ** Shape of normalized text and of tokens *)

Lemma single_spaced_lookup t i c d :
  single_spaced t → t !! i = Some c → t !! S i = Some d →
  Char.is_space c = true → Char.is_space d = false.
Proof.
  revert i. induction t as [|a t IH]; intros i Hss; [done|].
  destruct Hss as [Ha Ht]. destruct i as [|i]; simpl.
  - intros [= <-] Hd Hs. destruct t as [|b t]; [done|].
    simpl in Hd. simplify_eq. destruct (Ha (Is_true_true_2 _ Hs)) as [_ Hn].
    by destruct (Char.is_space d).
  - by apply IH.
Qed.

Lemma split_from_no_space cur s :
  Forall (λ c, Char.is_space c = false) cur →
  Forall (Forall (λ c, Char.is_space c = false)) (split_from cur s).
Proof.
  revert cur. induction s as [|c s IH]; intros cur Hcur; simpl.
  - destruct cur; [done|]. repeat constructor. by apply Forall_rev.
  - destruct (Char.is_space c) eqn:E.
    + destruct cur; [by apply IH|].
      constructor; [by apply Forall_rev|by apply IH].
    + apply IH. by constructor.
Qed.

Lemma norm_word_char c :
  Char.is_norm c → Char.is_space c = false →
  Char.is_az c ∨ Char.is_09 c ∨ c = "-"%char.
Proof.
  destruct c as [[] [] [] [] [] [] [] []]; vm_compute; try done;
    intros; (by left) || (right; by left) || (by right; right).
Qed.

Lemma norm_text_char c :
  Char.is_norm c → Char.is_az c ∨ Char.is_09 c ∨ c = "-"%char ∨ c = " "%char.
Proof.
  destruct c as [[] [] [] [] [] [] [] []]; vm_compute; try done;
    intros; (by left) || (right; by left) || (right; right; by left)
            || (by right; right; right).
Qed.

(** The result of [normalize] holds only lower-case letters, digits,
    hyphens and single spaces, and neither begins nor ends with a space. *)
Theorem normalize_shape (s : string) :
  let t := chars (normalize s) in
  (∀ c, c ∈ t →
     Char.is_az c ∨ Char.is_09 c ∨ c = "-"%char ∨ c = " "%char)
  ∧ t !! 0 ≠ Some " "%char
  ∧ last t ≠ Some " "%char
  ∧ (∀ i, t !! i = Some " "%char → t !! S i ≠ Some " "%char).
Proof.
  intros t. unfold t, normalize. rewrite chars_str.
  destruct (normalize_chars_normal (chars s)) as (Hn & Hss & Hhd & Hlast).
  set (u := normalize_chars (chars s)) in *.
  split_and!.
  - rewrite Forall_forall in Hn. intros c Hc. by apply norm_text_char, Hn.
  - destruct u as [|c u]; [done|]. simpl. intros [= ->].
    by specialize (Hhd _ _ eq_refl).
  - intros Hl. apply last_Some in Hl as [r Hr].
    by specialize (Hlast _ _ Hr).
  - intros i Hi Hi'.
    by pose proof (single_spaced_lookup _ _ _ _ Hss Hi Hi' eq_refl).
Qed.

Lemma normalize_shape_witness :
  chars (normalize " Navy  attack ") !! 5 ≠ Some " "%char.
Proof.
  pose proof (normalize_shape " Navy  attack ") as H. cbv zeta in H.
  destruct H as (_ & _ & _ & H). apply (H 4). by vm_compute.
Defined.

(** Normalizing a text first does not change its tokens. *)
Theorem tokenize_normalize (s : string) :
  tokenize (normalize s) = tokenize s.
Proof.
  unfold tokenize. f_equal. f_equal.
  unfold normalize. rewrite chars_str. f_equal.
  apply normal_fixed, normalize_chars_normal.
Qed.

(** Every token is made of lower-case letters, digits and hyphens, and
    comes from a word of the normalized text. *)
Theorem tokenize_alphabet (s w : string) :
  w ∈ tokenize s →
  w ∈ words (normalize s)
  ∧ ∀ c, c ∈ chars w → Char.is_az c ∨ Char.is_09 c ∨ c = "-"%char.
Proof.
  unfold tokenize. rewrite keep_words_filter.
  intros [_ Hw]%list_elem_of_filter. split; [done|].
  pose proof (words_normalize_norm s w Hw) as Hn.
  unfold words in Hw. apply list_elem_of_fmap in Hw as (cs & -> & Hcs).
  rewrite chars_str in *.
  pose proof (split_from_no_space [] (chars (normalize s)) (Forall_nil_2 _)) as Hsp.
  rewrite Forall_forall in Hsp. specialize (Hsp _ Hcs).
  rewrite Forall_forall in Hn, Hsp.
  intros c Hc. apply norm_word_char; [by apply Hn|by apply Hsp].
Qed.

Lemma tokenize_alphabet_witness :
  ∀ c, c ∈ chars "all-star" → Char.is_az c ∨ Char.is_09 c ∨ c = "-"%char.
Proof.
  apply (tokenize_alphabet "NBA All-Star game (recap)" "all-star").
  apply (bool_decide_unpack _). by vm_compute.
Defined.

(** ** Jaccard similarity *)

Lemma Zpos_of_nat u : u ≠ 0 → Z.pos (Pos.of_nat u) = Z.of_nat u.
Proof. intros Hu. rewrite <- positive_nat_Z. by rewrite Nat2Pos.id. Qed.

(** [jaccard] unfolded for token sets that are not empty. *)
Lemma jaccard_nonempty a b :
  list_to_set (C:=gset string) a ≠ ∅ → list_to_set (C:=gset string) b ≠ ∅ →
  let A : gset string := list_to_set a in
  let B : gset string := list_to_set b in
  jaccard a b = (Z.of_nat (size (A ∩ B)) # Pos.of_nat (size (A ∪ B)))
  ∧ size (A ∪ B) ≠ 0
  ∧ size (A ∩ B) ≤ size (A ∪ B).
Proof.
  intros Ha Hb A B. unfold jaccard. fold A B.
  rewrite !decide_False by done.
  assert (size (A ∪ B) ≠ 0) as Hu.
  { apply size_non_empty_iff. intros HE. apply Ha. fold A.
    apply leibniz_equiv. set_solver. }
  rewrite decide_False by done. split_and!; [done|done|].
  apply subseteq_size. set_solver.
Qed.

Lemma jaccard_empty a b :
  list_to_set (C:=gset string) a = ∅ ∨ list_to_set (C:=gset string) b = ∅ →
  jaccard a b = 0%Q.
Proof.
  unfold jaccard. intros [H|H]; repeat case_decide; done.
Qed.

Lemma list_to_set_empty_iff (a : list string) :
  list_to_set (C:=gset string) a = ∅ ↔ a = [].
Proof.
  split; [|by intros ->]. destruct a as [|x a]; [done|].
  intros H. assert (x ∈ (∅ : gset string)); [|set_solver].
  rewrite <- H. set_solver.
Qed.

Lemma jaccard_range a b : (0 <= jaccard a b)%Q ∧ (jaccard a b <= 1)%Q.
Proof.
  destruct (decide (list_to_set (C:=gset string) a = ∅)) as [Ha|Ha].
  { by rewrite jaccard_empty by by left. }
  destruct (decide (list_to_set (C:=gset string) b = ∅)) as [Hb|Hb].
  { by rewrite jaccard_empty by by right. }
  destruct (jaccard_nonempty a b Ha Hb) as (-> & Hu & Hle).
  unfold Qle. simpl. rewrite (Zpos_of_nat _ Hu). lia.
Qed.

(** [jaccard] is symmetric. *)
Theorem jaccard_symmetric (a b : list string) : jaccard a b = jaccard b a.
Proof.
  unfold jaccard.
  rewrite (comm_L (∩) (list_to_set a : gset string)).
  rewrite (comm_L (∪) (list_to_set a : gset string)).
  by repeat case_decide.
Qed.

(** [jaccard] lies between 0 and 1; it is 0 exactly when the two lists
    share no element, in particular when one of them is empty. *)
Theorem jaccard_zero_iff_disjoint (a b : list string) :
  (0 <= jaccard a b)%Q ∧ (jaccard a b <= 1)%Q
  ∧ ((jaccard a b == 0)%Q ↔ ∀ w, w ∈ a → w ∉ b)
  ∧ (a = [] ∨ b = [] → jaccard a b = 0%Q).
Proof.
  destruct (jaccard_range a b) as [H0 H1]. split_and!; try done.
  - destruct (decide (list_to_set (C:=gset string) a = ∅)) as [Ha|Ha].
    { rewrite jaccard_empty by by left. split; [|done].
      apply list_to_set_empty_iff in Ha as ->. by intros _ w ?%elem_of_nil. }
    destruct (decide (list_to_set (C:=gset string) b = ∅)) as [Hb|Hb].
    { rewrite jaccard_empty by by right. split; [|done].
      apply list_to_set_empty_iff in Hb as ->. by intros _ w _ ?%elem_of_nil. }
    destruct (jaccard_nonempty a b Ha Hb) as (-> & Hu & Hle).
    unfold Qeq. simpl. rewrite Z.mul_1_r.
    split.
    + intros Hz w Hwa Hwb.
      assert (size (list_to_set a ∩ list_to_set b : gset string) = 0) as Hs by lia.
      apply size_empty_iff in Hs. set_solver.
    + intros Hd.
      assert ((list_to_set a ∩ list_to_set b : gset string) = ∅) as ->.
      { apply leibniz_equiv. set_solver. }
      by rewrite size_empty.
  - intros [->| ->]; apply jaccard_empty; [by left|by right].
Qed.

(** [jaccard] is 1 exactly for two lists, not empty, with the same
    elements. *)
Theorem jaccard_one_iff_same (a b : list string) :
  (jaccard a b == 1)%Q ↔ a ≠ [] ∧ ∀ w, w ∈ a ↔ w ∈ b.
Proof.
  destruct (decide (list_to_set (C:=gset string) a = ∅)) as [Ha|Ha].
  { rewrite jaccard_empty by by left. apply list_to_set_empty_iff in Ha as ->.
    split; [done|]. by intros [? _]. }
  destruct (decide (list_to_set (C:=gset string) b = ∅)) as [Hb|Hb].
  { rewrite jaccard_empty by by right. apply list_to_set_empty_iff in Hb as ->.
    split; [done|]. intros [Hne Hsame]. destruct a as [|x a]; [done|].
    pose proof (proj1 (Hsame x) ltac:(left)) as H. by apply elem_of_nil in H. }
  destruct (jaccard_nonempty a b Ha Hb) as (-> & Hu & Hle).
  unfold Qeq. simpl. rewrite (Zpos_of_nat _ Hu), Z.mul_1_r, Z.mul_1_l.
  rewrite list_to_set_empty_iff in Ha.
  split.
  - intros Hz. split; [done|].
    assert ((list_to_set a ∩ list_to_set b : gset string)
            = list_to_set a ∪ list_to_set b) as Heq.
    { apply set_subseteq_size_eq; [set_solver|lia]. }
    intros w. split; intros Hw.
    + assert (w ∈ (list_to_set a ∩ list_to_set b : gset string)); [|set_solver].
      rewrite Heq. set_solver.
    + assert (w ∈ (list_to_set a ∩ list_to_set b : gset string)); [|set_solver].
      rewrite Heq. set_solver.
  - intros [_ Hsame].
    assert ((list_to_set a : gset string) = list_to_set b) as ->.
    { apply leibniz_equiv. set_solver. }
    set (B := list_to_set b : gset string).
    assert (B ∩ B = B) as -> by set_solver.
    by assert (B ∪ B = B) as -> by set_solver.
Qed.

Lemma jaccard_zero_iff_disjoint_witness : jaccard [] ["navy"; "attack"] = 0%Q.
Proof. apply (jaccard_zero_iff_disjoint [] ["navy"; "attack"]). by left. Defined.

(** ** Counters and their most common entries *)

Lemma counter_incr_keys w (c : Counter) :
  (counter_incr w c).*1 = if decide (w ∈ c.*1) then c.*1 else c.*1 ++ [w].
Proof.
  induction c as [|[k n] c IH].
  - cbn [counter_incr]. rewrite fmap_cons, !fmap_nil.
    case_decide as H; [by apply elem_of_nil in H|done].
  - cbn [counter_incr].
    destruct (decide (k = w)) as [->|Hkw]; rewrite !fmap_cons; cbn [fst].
    + clear IH. case_decide as H; [done|]. destruct H. left.
    + rewrite IH. clear IH. destruct (decide (w ∈ c.*1)) as [Hin|Hin].
      * case_decide as H; [done|]. destruct H. by right.
      * case_decide as H; [|done].
        apply elem_of_cons in H as [?|?]; congruence.
Qed.

Lemma counter_incr_keys_spec w (c : Counter) :
  NoDup c.*1 →
  NoDup (counter_incr w c).*1
  ∧ c.*1 `prefix_of` (counter_incr w c).*1
  ∧ ∀ x, x ∈ (counter_incr w c).*1 ↔ x ∈ c.*1 ∨ x = w.
Proof.
  intros Hnd. rewrite counter_incr_keys. case_decide.
  - split_and!; [done|done|]. intros x. split; [by left|].
    by intros [?| ->].
  - split_and!.
    + apply NoDup_app. split_and!; [done| |apply NoDup_singleton].
      intros x Hx ->%list_elem_of_singleton. done.
    + by apply prefix_app_r.
    + intros x. by rewrite elem_of_app, list_elem_of_singleton.
Qed.

(** [update] keeps the entries of a counter at their place, adds the new
    tokens behind them, and never holds a token twice. *)
Theorem counter_update_keys (c : Counter) (tks : list string) :
  NoDup c.*1 →
  NoDup (counter_update c tks).*1
  ∧ c.*1 `prefix_of` (counter_update c tks).*1
  ∧ ∀ x, x ∈ (counter_update c tks).*1 ↔ x ∈ c.*1 ∨ x ∈ tks.
Proof.
  unfold counter_update. revert c.
  induction tks as [|w tks IH]; intros c Hnd; simpl.
  - split_and!; [done|done|]. intros x. rewrite elem_of_nil. tauto.
  - destruct (counter_incr_keys_spec w c Hnd) as (Hnd' & Hpre & Hin).
    destruct (IH _ Hnd') as (Hnd'' & Hpre' & Hin').
    split_and!; [done|by etrans|].
    intros x. rewrite Hin', Hin, elem_of_cons. tauto.
Qed.

Lemma counter_update_keys_witness :
  NoDup (counter_update [("navy", 1); ("attack", 1)] ["border"; "attack"]).*1.
Proof.
  apply (counter_update_keys [("navy", 1); ("attack", 1)] ["border"; "attack"]).
  apply (bool_decide_unpack _). by vm_compute.
Defined.

Lemma most_common_sorted n (c : Counter) :
  most_common n c
  = take n (stable_sort (λ x y : string * nat, y.2 <=? x.2) c).
Proof. done. Qed.

Lemma most_common_top_aux n (c : Counter) :
  length (most_common n c) = n `min` length c
  ∧ most_common n c ⊆+ c
  ∧ (length c ≤ n → most_common n c ≡ₚ c).
Proof.
  rewrite most_common_sorted.
  set (s := stable_sort (λ x y : string * nat, y.2 <=? x.2) c).
  assert (s ≡ₚ c) as Hperm by apply (stable_sort_perm snd).
  split_and!.
  - by rewrite length_take, Hperm.
  - rewrite <- Hperm. apply submseteq_take.
  - intros Hle. rewrite take_ge; [done|]. by rewrite Hperm.
Qed.

(** [most_common n] gives [n] entries of the counter (all of them when
    there are fewer) by decreasing count: no entry left out has a higher
    count than one that is kept, and entries of equal count are taken in
    the order of insertion. *)
Theorem most_common_top (n : nat) (c : Counter) :
  let m := most_common n c in
  length m = n `min` length c
  ∧ m ⊆+ c
  ∧ StronglySorted (λ x y, y.2 ≤ x.2) m
  ∧ (∀ x y, x ∈ m → y ∈ c → y ∉ m → y.2 ≤ x.2)
  ∧ (∀ k, filter (λ x, x.2 = k) m `prefix_of` filter (λ x, x.2 = k) c).
Proof.
  intros m. unfold m. rewrite most_common_sorted.
  set (s := stable_sort (λ x y : string * nat, y.2 <=? x.2) c).
  assert (s ≡ₚ c) as Hperm by apply (stable_sort_perm snd).
  assert (StronglySorted (λ x y : string * nat, y.2 ≤ x.2) s) as Hsorted
    by apply (stable_sort_sorted snd).
  assert (∀ k, filter (λ x : string * nat, x.2 = k) s
               = filter (λ x, x.2 = k) c) as Hstable
    by (intros k; apply (stable_sort_stable snd)).
  split_and!.
  - by rewrite length_take, Hperm.
  - rewrite <- Hperm. apply submseteq_take.
  - rewrite <- (take_drop n s) in Hsorted.
    by apply StronglySorted_app_1_l in Hsorted.
  - intros x y Hx Hy Hny. rewrite <- Hperm, <- (take_drop n s) in Hy.
    apply elem_of_app in Hy as [?|Hy]; [done|].
    rewrite <- (take_drop n s) in Hsorted.
    by apply (StronglySorted_app_1_elem_of _ _ _ x y Hsorted).
  - intros k. rewrite <- Hstable. rewrite <- (take_drop n s) at 2.
    rewrite filter_app. by apply prefix_app_r.
Qed.

Lemma most_common_top_witness :
  ("border", 2).2 ≤ ("attack", 2).2.
Proof.
  pose proof (most_common_top 1 [("attack", 2); ("near", 1); ("border", 2)])
    as H.
  cbv zeta in H. destruct H as (_ & _ & _ & H & _).
  apply (H ("attack", 2) ("border", 2)).
  - apply (bool_decide_unpack _). by vm_compute.
  - apply (bool_decide_unpack _). by vm_compute.
  - apply (bool_decide_unpack _). by vm_compute.
Defined.

Lemma jaccard_perm a b b' : b ≡ₚ b' → jaccard a b = jaccard a b'.
Proof.
  intros Hp. unfold jaccard.
  assert (list_to_set (C:=gset string) b = list_to_set b') as ->; [|done].
  apply leibniz_equiv. intros x. rewrite !elem_of_list_to_set. by rewrite Hp.
Qed.

(** The centroid has at most 25 tokens, all of them counted in the
    cluster; for a cluster of at most 25 distinct tokens the similarity is
    the Jaccard similarity to its whole vocabulary. *)
Theorem centroid_of_small_cluster (c : Cluster) :
  length (centroid c) ≤ 25
  ∧ centroid c ⊆+ (tok_counts c).*1
  ∧ (length (tok_counts c) ≤ 25 →
     ∀ tks, similarity tks c = jaccard tks (tok_counts c).*1).
Proof.
  unfold centroid.
  destruct (most_common_top_aux 25 (tok_counts c)) as (Hlen & Hsub & Hall).
  split_and!.
  - rewrite length_fmap, Hlen. lia.
  - by apply fmap_submseteq.
  - intros Hsmall tks. unfold similarity, centroid.
    apply jaccard_perm. apply fmap_Permutation. by apply Hall.
Qed.

Lemma centroid_of_small_cluster_witness :
  similarity ["border"; "attack"]
    (own_cluster (headline "Navy attack near the border"))
  = jaccard ["border"; "attack"] ["navy"; "attack"; "near"; "border"].
Proof.
  apply (centroid_of_small_cluster
           (own_cluster (headline "Navy attack near the border"))).
  vm_compute. lia.
Defined.

(** ** More invariants of the clustering *)

Lemma cluster_step_cases th cs r :
  (unclusterable r ∧ cluster_step th cs r = cs)
  ∨ (¬ unclusterable r ∧ cluster_step th cs r = cs ++ [own_cluster r])
  ∨ (¬ unclusterable r ∧ ∃ i c, cs !! i = Some c
       ∧ cluster_step th cs r
         = alter (join r (tokenize (stripped_title r))) i cs).
Proof.
  destruct (decide (unclusterable r)) as [Hr|Hr].
  - left. split; [done|]. by apply cluster_step_skip.
  - right. rewrite cluster_step_clusterable by done.
    destruct (assign_cases th cs r (tokenize (stripped_title r)))
      as [->|(i & c & Hi & ->)]; [by left|right].
    split; [done|]. by exists i, c.
Qed.

(** A property of clusters that founding and joining keep holds for every
    cluster that the loop builds. *)
Lemma cluster_fold_Forall (P : Cluster → Prop) th :
  (∀ r, ¬ unclusterable r → P (own_cluster r)) →
  (∀ r c, ¬ unclusterable r → P c →
     P (join r (tokenize (stripped_title r)) c)) →
  ∀ rs cs, Forall P cs → Forall P (fold_left (cluster_step th) rs cs).
Proof.
  intros Hown Hjoin rs. induction rs as [|r rs IH]; intros cs Hcs; [done|].
  simpl. apply IH.
  destruct (cluster_step_cases th cs r)
    as [[_ ->]|[[Hr ->]|(Hr & i & c & Hi & ->)]]; [done| |].
  - apply Forall_app. split; [done|]. constructor; [by apply Hown|done].
  - apply Forall_alter; [done|]. intros c' _ Hc'. by apply Hjoin.
Qed.

Lemma cluster_titles_Forall (P : Cluster → Prop) th rs :
  (∀ r, ¬ unclusterable r → P (own_cluster r)) →
  (∀ r c, ¬ unclusterable r → P c →
     P (join r (tokenize (stripped_title r)) c)) →
  Forall P (cluster_titles rs th).
Proof.
  intros Hown Hjoin. unfold cluster_titles.
  rewrite (stable_sort_perm cluster_size). unfold cluster_loop.
  by apply cluster_fold_Forall.
Qed.

Lemma title_tokens_snoc rs r :
  title_tokens (rs ++ [r]) = title_tokens rs ++ tokenize (stripped_title r).
Proof.
  unfold title_tokens. rewrite fmap_app, concat_app. simpl.
  by rewrite app_nil_r.
Qed.

(** The token counts of every cluster are the counter of the title tokens
    of its records, taken in the order in which the records joined. *)
Theorem cluster_counts_are_member_tokens (rs : list Row) (th : Q) :
  Forall (λ c, tok_counts c = counter_of (title_tokens (rows c)))
    (cluster_titles rs th).
Proof.
  apply cluster_titles_Forall.
  - intros r _. simpl. unfold title_tokens. simpl. by rewrite app_nil_r.
  - intros r c _ Hc. simpl. rewrite title_tokens_snoc, Hc.
    unfold counter_of, counter_update. by rewrite fold_left_app.
Qed.

(** The records of every cluster stand in the order of the feed. *)
Theorem cluster_rows_in_feed_order (rs : list Row) (th : Q) :
  Forall (λ c, rows c `sublist_of` rs) (cluster_titles rs th).
Proof.
  unfold cluster_titles. rewrite (stable_sort_perm cluster_size).
  induction rs as [|r rs IH] using rev_ind; [done|].
  rewrite cluster_loop_snoc.
  assert (Forall (λ c, rows c `sublist_of` rs ++ [r]) (cluster_loop th rs))
    as IH'.
  { eapply Forall_impl; [done|]. intros c Hc. by apply sublist_inserts_r. }
  destruct (cluster_step_cases th (cluster_loop th rs) r)
    as [[_ ->]|[[Hr ->]|(Hr & i & c & Hi & ->)]]; [done| |].
  - apply Forall_app. split; [done|]. constructor; [|done].
    simpl. by apply sublist_inserts_l.
  - rewrite Forall_lookup in IH. rewrite Forall_lookup.
    intros j c' Hj. destruct (decide (i = j)) as [<-|Hij].
    + rewrite list_lookup_alter_eq, Hi in Hj. simpl in Hj.
      injection Hj as <-. simpl. apply sublist_app; [by eapply IH|done].
    + rewrite list_lookup_alter_ne in Hj by done.
      apply sublist_inserts_r. by eapply IH.
Qed.

Lemma cluster_fold_clusterable th rs cs :
  fold_left (cluster_step th) rs cs
  = fold_left (cluster_step th) (clusterable rs) cs.
Proof.
  revert cs. unfold clusterable.
  induction rs as [|r rs IH]; intros cs; [done|].
  rewrite filter_cons. destruct (decide (¬ unclusterable r)) as [Hr|Hr]; simpl.
  - apply IH.
  - rewrite cluster_step_skip; [apply IH|].
    by destruct (decide (unclusterable r)).
Qed.

(** Records without title tokens have no influence on the clusters. *)
Theorem cluster_titles_ignores_skipped (rs : list Row) (th : Q) :
  cluster_titles rs th = cluster_titles (clusterable rs) th.
Proof.
  unfold cluster_titles, cluster_loop. by rewrite cluster_fold_clusterable.
Qed.

Lemma sum_list_ge_length (l : list nat) :
  Forall (λ n, 0 < n) l → length l ≤ sum_list l.
Proof. induction 1; simpl; lia. Qed.

(** There are at most as many clusters as records with title tokens, and
    there is no cluster exactly when there is no such record. *)
Theorem cluster_count (rs : list Row) (th : Q) :
  length (cluster_titles rs th) ≤ length (clusterable rs)
  ∧ (cluster_titles rs th = [] ↔ clusterable rs = []).
Proof.
  destruct (cluster_fold_invariants th rs [] (Forall_nil_2 _)) as [Hm Hne].
  fold (cluster_loop th rs) in Hm, Hne. simpl in Hm.
  assert (cluster_titles rs th ≡ₚ cluster_loop th rs) as Hperm
    by apply (stable_sort_perm cluster_size).
  rewrite <- Hperm in Hne. rewrite <- (members_perm _ _ Hperm) in Hm.
  split.
  - rewrite <- Hm, members_length. etrans; [|apply sum_list_ge_length].
    + by rewrite length_fmap.
    + apply Forall_fmap. eapply Forall_impl; [done|].
      intros c Hc. unfold cluster_size. simpl.
      destruct (rows c) eqn:E; [by destruct Hc|simpl; lia].
  - split.
    + intros E. rewrite E in Hm. symmetry in Hm.
      by apply Permutation_nil_r in Hm.
    + intros E. rewrite E in Hm. apply Permutation_nil_r in Hm.
      destruct (cluster_titles rs th) as [|c cs]; [done|].
      inversion Hne as [|?? Hc _]; subst. unfold members in Hm. simpl in Hm.
      destruct (rows c) eqn:Erows; [by destruct Hc|done].
Qed.

(** ** A threshold that no similarity reaches *)

Lemma assign_above_one th cs r tks :
  (1 < th)%Q → assign th cs r tks = cs ++ [singleton_cluster r tks].
Proof.
  intros Hth. unfold assign, best_match.
  pose proof (best_match_from_spec tks 0 cs (None, 0%Q)) as Hspec.
  cbv zeta in Hspec.
  destruct (best_match_from tks 0 cs (None, 0%Q)) as [best_i best_sim].
  destruct Hspec as (_ & _ & [[[= -> ->] _]|(j & c & Hj & [= -> ->] & _)]);
    [done|].
  destruct (Qle_bool th (similarity tks c)) eqn:E; [|done].
  apply Qle_bool_iff in E.
  destruct (jaccard_range tks (centroid c)) as [_ H1].
  destruct (Qlt_irrefl 1). eapply Qlt_le_trans; [done|]. by eapply Qle_trans.
Qed.

Lemma cluster_fold_above_one th rs cs :
  (1 < th)%Q →
  fold_left (cluster_step th) rs cs = cs ++ (own_cluster <$> clusterable rs).
Proof.
  intros Hth. revert cs. unfold clusterable.
  induction rs as [|r rs IH]; intros cs; simpl; [by rewrite app_nil_r|].
  rewrite filter_cons. destruct (decide (¬ unclusterable r)) as [Hr|Hr].
  - rewrite cluster_step_clusterable, assign_above_one, IH by done.
    by rewrite <- app_assoc.
  - rewrite cluster_step_skip; [apply IH|].
    by destruct (decide (unclusterable r)).
Qed.

Lemma stable_sort_same_key {A} (key : A → nat) k l :
  Forall (λ x, key x = k) l →
  stable_sort (λ x y, key y <=? key x) l = l.
Proof.
  induction 1 as [|x l Hx Hl IH]; [done|]. simpl. rewrite IH.
  destruct Hl as [|y l Hy _]; [done|]. simpl.
  by rewrite Hx, Hy, Nat.leb_refl.
Qed.

(** With a threshold above 1 every record with title tokens founds a
    cluster of its own, and the clusters stand in the order of the feed. *)
Theorem threshold_above_one_separates (rs : list Row) (th : Q) :
  (1 < th)%Q → cluster_titles rs th = own_cluster <$> clusterable rs.
Proof.
  intros Hth. unfold cluster_titles, cluster_loop.
  rewrite cluster_fold_above_one by done. simpl.
  apply (stable_sort_same_key cluster_size 1).
  apply Forall_fmap. by apply Forall_true.
Qed.

Lemma threshold_above_one_separates_witness :
  cluster_titles
    [headline "Navy attack near the border"; headline "Navy attack near the border"]
    2
  = [ own_cluster (headline "Navy attack near the border");
      own_cluster (headline "Navy attack near the border") ].
Proof.
  rewrite threshold_above_one_separates by done. by vm_compute.
Defined.

(** ** Representative headline *)

Lemma insert_by_length {A} (before : A → A → bool) x l :
  length (insert_by before x l) = S (length l).
Proof.
  induction l as [|y l IH]; [done|]. simpl.
  destruct (before x y); simpl; by rewrite ?IH.
Qed.

Lemma stable_sort_length {A} (before : A → A → bool) l :
  length (stable_sort before l) = length l.
Proof.
  induction l as [|x l IH]; [done|]. simpl. by rewrite insert_by_length, IH.
Qed.

Lemma insert_by_elem_of {A} (before : A → A → bool) x l y :
  y ∈ insert_by before x l ↔ y = x ∨ y ∈ l.
Proof.
  induction l as [|z l IH]; simpl.
  - rewrite list_elem_of_singleton, elem_of_nil. tauto.
  - destruct (before x z); rewrite !elem_of_cons, ?IH; tauto.
Qed.

Lemma stable_sort_elem_of {A} (before : A → A → bool) l y :
  y ∈ stable_sort before l ↔ y ∈ l.
Proof.
  induction l as [|x l IH]; [done|]. simpl.
  by rewrite insert_by_elem_of, elem_of_cons, IH.
Qed.

(** The head of a sorted list may stand in front of every element. *)
Lemma stable_sort_head {A} (before : A → A → bool) l h t :
  (∀ x y, before x y = true ∨ before y x = true) →
  (∀ x y z, before x y = true → before y z = true → before x z = true) →
  stable_sort before l = h :: t →
  ∀ y, y ∈ l → before h y = true.
Proof.
  intros Htotal Htrans. revert h t.
  induction l as [|x l IH]; intros h t; [done|]. simpl.
  destruct (stable_sort before l) as [|h' t'] eqn:E.
  - apply (f_equal length) in E. rewrite stable_sort_length in E.
    destruct l; [|done]. simpl. intros [= <- _] y ->%list_elem_of_singleton.
    by destruct (Htotal x x).
  - specialize (IH h' t' eq_refl). simpl.
    destruct (before x h') eqn:Hx.
    + intros [= <- _] y [->|Hy]%elem_of_cons.
      * by destruct (Htotal x x).
      * eapply Htrans; [done|]. by apply IH.
    + intros [= <- _] y [->|Hy]%elem_of_cons; [|by apply IH].
      destruct (Htotal h' x); congruence.
Qed.

Lemma key_le_spec x y :
  key_le x y = true ↔ (x.1 < y.1)%Z ∨ (x.1 = y.1 ∧ x.2 ≤ y.2).
Proof.
  unfold key_le.
  rewrite orb_true_iff, andb_true_iff, Z.ltb_lt, Z.eqb_eq, Nat.leb_le. tauto.
Qed.

(** [representative_title] raises [IndexError] for a cluster without
    records; otherwise it returns the title of a record of the cluster of
    highest score, and of shortest title among those of highest score. *)
Theorem representative_title_best (c : Cluster) :
  (rows c = [] → representative_title c = IndexError)
  ∧ (rows c ≠ [] →
     ∃ r, r ∈ rows c
       ∧ representative_title c = Ok (get_or_empty (title r))
       ∧ ∀ r', r' ∈ rows c →
           title_score (tok_counts c) r' ≤ title_score (tok_counts c) r
           ∧ (title_score (tok_counts c) r' = title_score (tok_counts c) r →
              title_length r ≤ title_length r')).
Proof.
  unfold representative_title.
  set (before := λ x y, key_le (title_key (tok_counts c) x)
                               (title_key (tok_counts c) y)).
  split.
  - by intros ->.
  - intros Hne.
    destruct (stable_sort before (rows c)) as [|r t] eqn:E.
    { apply (f_equal length) in E. rewrite stable_sort_length in E.
      by destruct (rows c). }
    exists r. split_and!.
    + apply (stable_sort_elem_of before). rewrite E. left.
    + done.
    + intros r' Hr'.
      assert (before r r' = true) as Hb.
      { apply (stable_sort_head before (rows c) r t); try done.
        - intros x y. unfold before. rewrite !key_le_spec. lia.
        - intros x y z. unfold before. rewrite !key_le_spec. lia. }
      unfold before in Hb. apply key_le_spec in Hb.
      unfold title_key, title_score, title_length in *. simpl in Hb. lia.
Qed.

Lemma representative_title_best_witness :
  representative_title {| rows := []; tok_counts := [("navy", 1)] |}
  = IndexError.
Proof. by apply representative_title_best. Defined.

Example representative_prefers_high_score :
  representative_title
    {| rows := [ headline "Navy attack near the border today";
                 headline "Navy attack near the border" ];
       tok_counts := counter_of
         ["navy"; "attack"; "near"; "border"; "today";
          "navy"; "attack"; "near"; "border"] |}
  = Ok (Some "Navy attack near the border today").
Proof. by vm_compute. Qed.

(** ** Choice of the clusters of the paragraph *)

Lemma choose_from_spec clusters chosen seen :
  seen = list_to_set chosen.*2 → NoDup chosen.*2 → length chosen < 3 →
  let res := choose_from clusters chosen seen in
  NoDup res.*2
  ∧ length res ≤ 3
  ∧ (∃ extra, res = chosen ++ extra
       ∧ extra `sublist_of` clusters
       ∧ (chosen = [] → head extra = head clusters))
  ∧ (length res < 3 → ∀ c, c ∈ clusters → c.2 ∈ res.*2).
Proof.
  revert chosen seen.
  induction clusters as [|c rest IH]; intros chosen seen Hseen Hnd Hlen; simpl.
  - split_and!; [done|lia| |by intros _ c ?%elem_of_nil].
    exists []. by rewrite app_nil_r.
  - destruct (decide (c.2 ∉ seen)) as [Hc|Hc].
    + assert (NoDup (chosen ++ [c]).*2) as Hnd'.
      { rewrite fmap_app. apply NoDup_app. split_and!; [done| |apply NoDup_singleton].
        intros x Hx ->%list_elem_of_singleton. apply Hc. subst seen.
        by apply elem_of_list_to_set. }
      destruct (decide (length (chosen ++ [c]) = 3)) as [H3|H3].
      * split_and!; [done|lia| |lia].
        exists [c]. split_and!; [done| |done].
        apply sublist_skip, sublist_nil_l.
      * destruct (IH (chosen ++ [c]) ({[c.2]} ∪ seen)) as (Hn & Hl & Hex & Hall).
        { subst seen. rewrite fmap_app, list_to_set_app_L. simpl. set_solver. }
        { done. }
        { rewrite length_app in *. simpl in *. lia. }
        destruct Hex as (extra & Hres & Hsub & _).
        split_and!; [done|done| |].
        -- exists (c :: extra). split_and!; [|by apply sublist_skip|done].
           by rewrite Hres, <- app_assoc.
        -- intros Hlt x [->|Hx]%elem_of_cons; [|by apply Hall].
           rewrite Hres, fmap_app, fmap_app. set_solver.
    + rewrite decide_False by lia.
      destruct (IH chosen seen Hseen Hnd Hlen) as (Hn & Hl & Hex & Hall).
      destruct Hex as (extra & Hres & Hsub & Hhd).
      split_and!; [done|done| |].
      * exists extra. split_and!; [done|by apply sublist_cons|].
        intros ->. subst seen. simpl in Hc. set_solver.
      * intros Hlt x [->|Hx]%elem_of_cons; [|by apply Hall].
        rewrite Hres, fmap_app. apply elem_of_app. left.
        apply dec_stable in Hc. subst seen.
        by apply elem_of_list_to_set in Hc.
Qed.

(** The clusters picked first have pairwise different topics, are at most
    three, in the order of the list, and begin with its first cluster;
    when fewer than three are picked, every topic of the list is among
    theirs. *)
Theorem choose_from_distinct_topics (labelled : list (Cluster * string)) :
  let chosen := choose_from labelled [] ∅ in
  chosen `sublist_of` labelled
  ∧ NoDup chosen.*2
  ∧ length chosen ≤ 3
  ∧ head chosen = head labelled
  ∧ (length chosen < 3 → ∀ c, c ∈ labelled → c.2 ∈ chosen.*2).
Proof.
  intros chosen.
  destruct (choose_from_spec labelled [] ∅) as (Hn & Hl & Hex & Hall);
    [done|constructor|simpl; lia|].
  destruct Hex as (extra & Hres & Hsub & Hhd). simpl in Hres.
  fold chosen in Hn, Hl, Hall, Hres. subst chosen. rewrite Hres in *.
  split_and!; try done. by apply Hhd.
Qed.

Lemma choose_from_distinct_topics_witness :
  ∀ c, c ∈ [ (own_cluster (headline "Navy attack"), "Geopolitics & security");
             (own_cluster (headline "Border war"), "Geopolitics & security") ] →
    c.2 ∈ (choose_from
             [ (own_cluster (headline "Navy attack"), "Geopolitics & security");
               (own_cluster (headline "Border war"), "Geopolitics & security") ]
             [] ∅).*2.
Proof.
  apply (choose_from_distinct_topics
           [ (own_cluster (headline "Navy attack"), "Geopolitics & security");
             (own_cluster (headline "Border war"), "Geopolitics & security") ]).
  vm_compute. lia.
Defined.

(** ** Topic labels form a closed set *)

(** [label_cluster] returns a topic of the table or "Other". *)
Theorem label_cluster_closed (cluster : Cluster) :
  label_cluster cluster ∈ "Other" :: TOPIC_LEXICON.*1.
Proof.
  unfold label_cluster, label_counts.
  pose proof (label_scan_spec (tok_counts cluster) TOPIC_LEXICON (None, 0))
    as Hspec. cbv zeta in Hspec.
  set (res := label_scan (tok_counts cluster) TOPIC_LEXICON (None, 0)) in *.
  destruct Hspec as (_ & _ & [[-> _]|(i & t & w & Hi & -> & _)]); cbn [fst].
  - left.
  - case_decide; [left|]. right.
    apply (list_elem_of_fmap_2 fst TOPIC_LEXICON (t, w)).
    by eapply list_elem_of_lookup_2.
Qed.

(** ** More of the signal filter *)

(** A text that is low-signal stays so when tokens are added. *)
Theorem is_low_signal_monotone (t d t' d' : option string) :
  (∀ w, w ∈ tokenize (or_empty t +:+ " " +:+ or_empty d) →
        w ∈ tokenize (or_empty t' +:+ " " +:+ or_empty d')) →
  is_low_signal t d = true → is_low_signal t' d' = true.
Proof.
  intros Hsub. unfold is_low_signal.
  set (ws := list_to_set (tokenize (or_empty t +:+ " " +:+ or_empty d)) : gset string).
  set (ws' := list_to_set (tokenize (or_empty t' +:+ " " +:+ or_empty d')) : gset string).
  assert (ws ⊆ ws') as Hss.
  { intros w. unfold ws, ws'. rewrite !elem_of_list_to_set. apply Hsub. }
  assert (∀ lex : gset string, size (ws ∩ lex) ≤ size (ws' ∩ lex)) as Hsize.
  { intros lex. apply subseteq_size. set_solver. }
  pose proof (Hsize SPORTS). pose proof (Hsize LIFESTYLE_LOCAL).
  pose proof (Hsize FINANCE_TICKER).
  repeat (case_match; try done);
    repeat match goal with
      | H : (_ <=? _) = true |- _ => apply Nat.leb_le in H
      | H : (_ <=? _) = false |- _ => apply Nat.leb_gt in H
      end; lia.
Qed.

Lemma is_low_signal_monotone_witness :
  is_low_signal (Some "NBA finals tonight") (Some "Lakers lead") = true.
Proof.
  apply (is_low_signal_monotone (Some "NBA finals") None).
  - apply Forall_forall. apply (bool_decide_unpack _). by vm_compute.
  - by vm_compute.
Defined.

(** ** The paragraph of three or more clusters *)

Lemma representative_title_Ok c :
  rows c ≠ [] → ∃ t, representative_title c = Ok t.
Proof.
  intros Hne. unfold representative_title.
  match goal with |- context [stable_sort ?b _] => set (before := b) end.
  destruct (stable_sort before (rows c)) as [|r t] eqn:E.
  - apply (f_equal length) in E. rewrite stable_sort_length in E.
    by destruct (rows c).
  - by eexists.
Qed.

Lemma narrate_lines (p0 p1 p2 : Cluster * string) t0 t1 t2 :
  representative_title p0.1 = Ok t0 →
  representative_title p1.1 = Ok t1 →
  representative_title p2.1 = Ok t2 →
  mapM (λ c : Cluster * string,
          rep ← representative_title c.1; mret (c.2 +:+ ": " +:+ fmt rep))
    [p0; p1; p2]
  = Ok [ p0.2 +:+ ": " +:+ fmt t0; p1.2 +:+ ": " +:+ fmt t1;
         p2.2 +:+ ": " +:+ fmt t2 ].
Proof. intros H0 H1 H2. simpl. by rewrite H0, H1, H2. Qed.

Lemma narrate_three clusters :
  3 ≤ length clusters → Forall (λ c, rows c ≠ []) clusters →
  ∃ c0 c1 c2 t0 t1 t2,
    [c0; c1; c2] `sublist_of` clusters
    ∧ head clusters = Some c0
    ∧ representative_title c0 = Ok t0
    ∧ representative_title c1 = Ok t1
    ∧ representative_title c2 = Ok t2
    ∧ narrate clusters
      = Ok (template (line_of c0 t0) (line_of c1 t1) (line_of c2 t2)).
Proof.
  intros Hlen Hne.
  destruct clusters as [|d0 ds]; [simpl in Hlen; lia|].
  unfold narrate. cbv iota.
  set (clusters := d0 :: ds) in *. clearbody clusters. clear d0 ds.
  set (labelled := (λ c, (c, label_cluster c)) <$> clusters).
  assert (fst <$> labelled = clusters) as Hfst.
  { unfold labelled. rewrite <- list_fmap_compose. apply list_fmap_id. }
  assert (Forall (λ p, p.2 = label_cluster p.1 ∧ rows p.1 ≠ []) labelled)
    as Hlab.
  { unfold labelled. apply Forall_fmap. eapply Forall_impl; [done|]. by intros. }
  assert (3 ≤ length labelled) as Hlen'.
  { unfold labelled. by rewrite length_fmap. }
  clearbody labelled.
  set (chosen := if length (choose_from labelled [] ∅) <? 3
                 then take 3 labelled else choose_from labelled [] ∅).
  assert (length chosen = 3 ∧ chosen `sublist_of` labelled
          ∧ head chosen = head labelled) as (Hc3 & Hsub & Hhd).
  { destruct (choose_from_spec labelled [] ∅) as (_ & Hl & Hex & _);
      [done|constructor|simpl; lia|].
    destruct Hex as (extra & Hres & Hsub & Hhd). simpl in Hres.
    unfold chosen.
    destruct (length (choose_from labelled [] ∅) <? 3) eqn:E.
    - split_and!; [|apply sublist_take|].
      + rewrite length_take. lia.
      + destruct labelled as [|? [|? [|? ?]]]; simpl in *; done || lia.
    - apply Nat.ltb_ge in E. split_and!; [lia| |].
      + by rewrite Hres.
      + rewrite Hres. by apply Hhd. }
  clearbody chosen.
  destruct chosen as [|p0 [|p1 [|p2 [|? ?]]]]; try (simpl in Hc3; lia).
  assert (Forall (λ p, p.2 = label_cluster p.1 ∧ rows p.1 ≠ []) [p0; p1; p2])
    as Hch.
  { rewrite Forall_forall in Hlab. apply Forall_forall.
    intros p Hp. apply Hlab. by eapply elem_of_sublist. }
  apply Forall_cons in Hch as [[E0 N0] Hch].
  apply Forall_cons in Hch as [[E1 N1] Hch].
  apply Forall_cons in Hch as [[E2 N2] _].
  destruct (representative_title_Ok _ N0) as [t0 H0].
  destruct (representative_title_Ok _ N1) as [t1 H1].
  destruct (representative_title_Ok _ N2) as [t2 H2].
  exists p0.1, p1.1, p2.1, t0, t1, t2. split_and!; try done.
  - rewrite <- Hfst.
    change [p0.1; p1.1; p2.1] with (fst <$> [p0; p1; p2]).
    by apply fmap_sublist.
  - rewrite <- Hfst.
    destruct labelled as [|q qs]; simpl in *; [lia|]. by injection Hhd as ->.
  - rewrite (narrate_lines p0 p1 p2 t0 t1 t2 H0 H1 H2). simpl.
    unfold template, line_of. by rewrite E0, E1, E2.
Qed.

Lemma feed_clusters_nonempty rs : Forall (λ c, rows c ≠ []) (feed_clusters rs).
Proof.
  unfold feed_clusters. apply cluster_titles_Forall; [done|].
  intros r c _ _. simpl. by destruct (rows c).
Qed.

Lemma build_clean_paragraph_feed rs :
  rs ≠ [] → build_clean_paragraph rs = narrate (feed_clusters rs).
Proof. by destruct rs. Qed.

Lemma feed_clusters_nil : feed_clusters [] = [].
Proof. done. Qed.

Lemma paragraph_of_three_clusters_aux rs :
  3 ≤ length (feed_clusters rs) → ∃ text, build_clean_paragraph rs = Ok text.
Proof.
  intros Hlen.
  assert (rs ≠ []) as Hrs by (intros ->; simpl in Hlen; lia).
  rewrite build_clean_paragraph_feed by done.
  destruct (narrate_three (feed_clusters rs) Hlen (feed_clusters_nonempty rs))
    as (c0 & c1 & c2 & t0 & t1 & t2 & _ & _ & _ & _ & _ & ->).
  by eexists.
Qed.

(** With three clusters or more [build_clean_paragraph] returns the
    template filled with three lines, each the label of a cluster and its
    representative title; the clusters are taken in the order of their
    list, and the first line is that of the largest cluster. *)
Theorem paragraph_of_three_clusters (rs : list Row) :
  3 ≤ length (feed_clusters rs) →
  ∃ c0 c1 c2 t0 t1 t2,
    [c0; c1; c2] `sublist_of` feed_clusters rs
    ∧ head (feed_clusters rs) = Some c0
    ∧ representative_title c0 = Ok t0
    ∧ representative_title c1 = Ok t1
    ∧ representative_title c2 = Ok t2
    ∧ build_clean_paragraph rs
      = Ok (template (line_of c0 t0) (line_of c1 t1) (line_of c2 t2)).
Proof.
  intros Hlen.
  assert (rs ≠ []) as Hrs by (intros ->; simpl in Hlen; lia).
  rewrite build_clean_paragraph_feed by done.
  apply narrate_three; [done|apply feed_clusters_nonempty].
Qed.

Lemma paragraph_of_three_clusters_witness :
  ∃ c0 c1 c2 t0 t1 t2,
    [c0; c1; c2] `sublist_of` feed_clusters
        [ headline "Navy attack near the border";
          headline "Inflation data lifts markets";
          headline "Flood and storm damage spreads" ]
    ∧ head (feed_clusters
        [ headline "Navy attack near the border";
          headline "Inflation data lifts markets";
          headline "Flood and storm damage spreads" ]) = Some c0
    ∧ representative_title c0 = Ok t0
    ∧ representative_title c1 = Ok t1
    ∧ representative_title c2 = Ok t2
    ∧ build_clean_paragraph
        [ headline "Navy attack near the border";
          headline "Inflation data lifts markets";
          headline "Flood and storm damage spreads" ]
      = Ok (template (line_of c0 t0) (line_of c1 t1) (line_of c2 t2)).
Proof.
  apply paragraph_of_three_clusters. vm_compute. lia.
Defined.

(** [build_clean_paragraph] raises [IndexError] exactly when the corpus
    forms one or two clusters; for every other feed it returns a text. *)
Theorem index_error_iff_one_or_two_clusters (rs : list Row) :
  build_clean_paragraph rs = IndexError
  ↔ 0 < length (feed_clusters rs) < 3.
Proof.
  split.
  - intros Herr. destruct (decide (rs = [])) as [->|Hrs]; [done|].
    destruct (decide (length (feed_clusters rs) = 0)) as [H0|H0].
    { rewrite build_clean_paragraph_feed in Herr by done.
      by destruct (feed_clusters rs). }
    destruct (decide (3 ≤ length (feed_clusters rs))) as [H3|H3]; [|lia].
    destruct (paragraph_of_three_clusters_aux rs H3) as (l & Hl). congruence.
  - intros Hlen.
    assert (rs ≠ []) as Hrs by (intros ->; simpl in Hlen; lia).
    rewrite build_clean_paragraph_feed by done. by apply narrate_short.
Qed.

(** ** Fetching the feed *)

Example fetch_two_pages :
  fetch_run two_pages "key" 100 "en" 8 None
  = ([ {| apikey := "key"; language := "en"; category := None; page := None |};
       {| apikey := "key"; language := "en"; category := None;
          page := Some "p2" |} ],
     Items [ headline "Navy attack near the border";
             headline "Inflation data lifts markets";
             headline "Flood and storm damage spreads" ])
  ∧ fetch_top_n two_pages "key" 1 "en" 8 None
    = Items [ headline "Navy attack near the border" ]
  ∧ fetch_top_n two_pages "key" 100 "en" 8 (Some "world")
    = Items [ headline "Navy attack near the border";
              headline "Inflation data lifts markets";
              headline "Flood and storm damage spreads" ]
  ∧ fetch_top_n two_pages "key" 100 "en" 0 None = Items [].
Proof. by vm_compute. Qed.

Section fetch.
Context (srv : service) (api_key lang : string) (cat : option string) (n : Z).

(** One iteration of the loop. *)
Lemma fetch_loop_S calls k items tok log out :
  fetch_loop srv api_key lang cat n (S calls) k items tok = (log, out) →
  let p := {| apikey := api_key; language := lang;
              category := truthy cat; page := truthy tok |} in
  (∃ e, srv k p = Fails e ∧ log = [p] ∧ out = Raised e)
  ∨ (∃ d, srv k p = Json d ∧ status d ≠ Some "success"
          ∧ log = [p] ∧ out = RuntimeError d)
  ∨ (∃ d, srv k p = Json d ∧ status d = Some "success"
          ∧ log = [p] ∧ out = Items (items ++ results d)
          ∧ ((n <= Z.of_nat (length (items ++ results d)))%Z
             ∨ truthy (nextPage d) = None))
  ∨ (∃ d log', srv k p = Json d ∧ status d = Some "success"
          ∧ (Z.of_nat (length (items ++ results d)) < n)%Z
          ∧ is_Some (truthy (nextPage d))
          ∧ fetch_loop srv api_key lang cat n calls (S k)
              (items ++ results d) (nextPage d) = (log', out)
          ∧ log = p :: log').
Proof.
  intros H p. cbn [fetch_loop] in H. fold p in H.
  destruct (srv k p) as [e|d]; [left; exists e; by simplify_eq|right].
  destruct (decide (status d = Some "success")) as [Hs|Hs];
    [right|left; exists d; by simplify_eq].
  destruct (n <=? Z.of_nat (length (items ++ results d)))%Z eqn:E.
  { apply Z.leb_le in E. left. exists d. simplify_eq. split_and!; try done.
    by left. }
  apply Z.leb_gt in E.
  destruct (truthy (nextPage d)) as [t|] eqn:Et.
  - right.
    destruct (fetch_loop srv api_key lang cat n calls (S k)
                (items ++ results d) (nextPage d)) as [log' out'] eqn:El.
    exists d, log'. simplify_eq. split_and!; done.
  - left. exists d. simplify_eq. split_and!; try done. by right.
Qed.

Lemma fetch_loop_length calls k items tok log out :
  fetch_loop srv api_key lang cat n calls k items tok = (log, out) →
  length log ≤ calls.
Proof.
  revert k items tok log out.
  induction calls as [|calls IH]; intros k items tok log out H.
  - simpl in H. simplify_eq. done.
  - apply fetch_loop_S in H
      as [(e & _ & -> & _)|[(d & _ & _ & -> & _)|[(d & _ & _ & -> & _)
         |(d & log' & _ & _ & _ & _ & H & ->)]]]; simpl; try lia.
    apply IH in H. lia.
Qed.

Lemma fetch_loop_params calls k items tok log out :
  fetch_loop srv api_key lang cat n calls k items tok = (log, out) →
  Forall (λ p, apikey p = api_key ∧ language p = lang
               ∧ category p = truthy cat) log
  ∧ threaded srv k tok log.
Proof.
  revert k items tok log out.
  induction calls as [|calls IH]; intros k items tok log out H.
  - simpl in H. simplify_eq. done.
  - apply fetch_loop_S in H
      as [(e & _ & -> & _)|[(d & _ & _ & -> & _)|[(d & _ & _ & -> & _)
         |(d & log' & Hd & _ & _ & Htok & H & ->)]]];
      try (split; [by repeat constructor|done]).
    pose proof (fetch_loop_length _ _ _ _ _ _ H) as Hlen.
    destruct (IH _ _ _ _ _ H) as [Hp Ht]. split; [by constructor|].
    split; [done|]. destruct log' as [|p' log'']; [done|].
    exists d. by rewrite Hd.
Qed.

Lemma fetch_loop_items calls k items tok log l :
  fetch_loop srv api_key lang cat n calls k items tok = (log, Items l) →
  Forall successful (replies srv k log)
  ∧ l = items ++ concat (page_items <$> replies srv k log).
Proof.
  revert k items tok log.
  induction calls as [|calls IH]; intros k items tok log H.
  - simpl in H. simplify_eq. split; [done|]. by rewrite app_nil_r.
  - apply fetch_loop_S in H
      as [(e & _ & _ & ?)|[(d & _ & _ & _ & ?)|[(d & Hd & Hs & -> & Hl & _)
         |(d & log' & Hd & Hs & _ & _ & H & ->)]]]; try done.
    + simplify_eq. simpl. rewrite Hd. simpl. split.
      * repeat constructor. by exists d.
      * by rewrite app_nil_r.
    + destruct (IH _ _ _ _ H) as [Hall ->]. simpl. rewrite Hd. simpl. split.
      * constructor; [by exists d|done].
      * by rewrite <- app_assoc.
Qed.

Lemma fetch_loop_error calls k items tok log out :
  fetch_loop srv api_key lang cat n calls k items tok = (log, out) →
  (∀ l, out ≠ Items l) →
  ∃ log' p,
    log = log' ++ [p]
    ∧ Forall successful (replies srv k log')
    ∧ match out with
      | RuntimeError d =>
          srv (k + length log') p = Json d ∧ status d ≠ Some "success"
      | Raised e => srv (k + length log') p = Fails e
      | Items _ => False
      end.
Proof.
  revert k items tok log.
  induction calls as [|calls IH]; intros k items tok log H Hout.
  - simpl in H. simplify_eq. by destruct (Hout items).
  - apply fetch_loop_S in H
      as [(e & He & -> & ->)|[(d & Hd & Hs & -> & ->)|[(d & _ & _ & _ & -> & _)
         |(d & log' & Hd & Hs & _ & _ & H & ->)]]].
    + eexists [], _. rewrite Nat.add_0_r. by split_and!.
    + eexists [], _. rewrite Nat.add_0_r. by split_and!.
    + by destruct (Hout (items ++ results d)).
    + destruct (IH _ _ _ _ H Hout) as (log'' & p & -> & Hall & Hlast).
      eexists (_ :: log''), p. split_and!; [done| |].
      * simpl. rewrite Hd. constructor; [by exists d|done].
      * simpl. rewrite Nat.add_succ_r. by rewrite Nat.add_succ_l in Hlast.
Qed.

Lemma fetch_loop_frugal calls k items tok log out j :
  fetch_loop srv api_key lang cat n calls k items tok = (log, out) →
  S j < length log →
  (Z.of_nat (length (items ++ concat
      (page_items <$> take (S j) (replies srv k log)))) < n)%Z.
Proof.
  revert k items tok log j.
  induction calls as [|calls IH]; intros k items tok log j H Hj.
  - simpl in H. simplify_eq. simpl in Hj. lia.
  - apply fetch_loop_S in H
      as [(e & _ & -> & _)|[(d & _ & _ & -> & _)|[(d & _ & _ & -> & _)
         |(d & log' & Hd & Hs & Hlt & _ & H & ->)]]]; try (simpl in Hj; lia).
    simpl in Hj. cbn [replies]. rewrite Hd.
    destruct j as [|j].
    + simpl. by rewrite app_nil_r.
    + specialize (IH _ _ _ _ j H ltac:(lia)).
      rewrite firstn_cons, fmap_cons. cbn [concat page_items].
      by rewrite app_assoc.
Qed.

End fetch.

Lemma fetch_run_loop srv api_key n lang max_calls cat log out :
  fetch_run srv api_key n lang max_calls cat = (log, out) →
  ∃ out',
    fetch_loop srv api_key lang cat n (Z.to_nat max_calls) 0 [] None
    = (log, out')
    ∧ out = match out' with Items items => Items (slice_to items n) | _ => out' end.
Proof.
  unfold fetch_run.
  destruct (fetch_loop srv api_key lang cat n (Z.to_nat max_calls) 0 [] None)
    as [log' out'].
  intros [= <- <-]. by exists out'.
Qed.

Lemma slice_to_length items n :
  (0 <= n)%Z → (Z.of_nat (length (slice_to items n)) <= n)%Z.
Proof.
  intros Hn. unfold slice_to.
  destruct (n <? 0)%Z eqn:E; [apply Z.ltb_lt in E; lia|].
  rewrite length_take. lia.
Qed.

(** A run makes at most [max_calls] requests.  When it returns items,
    every reply was a success, and the items are the results of the
    replies in order, cut by [[:n]]: at most [n] of them for [n] that is
    not negative. *)
Theorem fetch_top_n_bounded srv api_key n lang max_calls cat log out :
  fetch_run srv api_key n lang max_calls cat = (log, out) →
  length log ≤ Z.to_nat max_calls
  ∧ ∀ l, out = Items l →
      Forall successful (replies srv 0 log)
      ∧ l = slice_to (concat (page_items <$> replies srv 0 log)) n
      ∧ ((0 <= n)%Z → (Z.of_nat (length l) <= n)%Z).
Proof.
  intros (out' & Hloop & ->)%fetch_run_loop. split.
  - by eapply fetch_loop_length.
  - intros l Hl. destruct out' as [items| |]; try done.
    injection Hl as <-.
    apply fetch_loop_items in Hloop as [Hall ->]. simpl.
    split_and!; [done|done|apply slice_to_length].
Qed.

Lemma fetch_top_n_bounded_witness :
  length [ headline "Navy attack near the border" ] ≤ Z.to_nat 8.
Proof.
  pose proof (fetch_top_n_bounded two_pages "key" 1 "en" 8 None
    [ {| apikey := "key"; language := "en"; category := None; page := None |} ]
    (Items [ headline "Navy attack near the border" ])) as H.
  apply H. by vm_compute.
Defined.

(** Every request of a run carries the key, the language and the category
    of the call; the first has no page token, and each later one has the
    [nextPage] token of the reply before it. *)
Theorem fetch_top_n_paging srv api_key n lang max_calls cat log out :
  fetch_run srv api_key n lang max_calls cat = (log, out) →
  Forall (λ p, apikey p = api_key ∧ language p = lang
               ∧ category p = truthy cat) log
  ∧ threaded srv 0 None log.
Proof.
  intros (out' & Hloop & _)%fetch_run_loop.
  by eapply fetch_loop_params.
Qed.

Lemma fetch_top_n_paging_witness :
  threaded two_pages 0 None
    [ {| apikey := "key"; language := "en"; category := None; page := None |};
      {| apikey := "key"; language := "en"; category := None;
         page := Some "p2" |} ].
Proof.
  eapply (fetch_top_n_paging two_pages "key" 100 "en" 8 None). by vm_compute.
Defined.

(** A run that returns no items raised at its last request: the replies
    before it were successes, and the last one either failed or had a
    status other than "success", which is the [RuntimeError] raised. *)
Theorem fetch_top_n_error srv api_key n lang max_calls cat log out :
  fetch_run srv api_key n lang max_calls cat = (log, out) →
  (∀ l, out ≠ Items l) →
  ∃ log' p,
    log = log' ++ [p]
    ∧ Forall successful (replies srv 0 log')
    ∧ match out with
      | RuntimeError d =>
          srv (length log') p = Json d ∧ status d ≠ Some "success"
      | Raised e => srv (length log') p = Fails e
      | Items _ => False
      end.
Proof.
  intros (out' & Hloop & ->)%fetch_run_loop Hout.
  destruct out' as [items|d|e]; [by destruct (Hout (slice_to items n))| |];
    by apply fetch_loop_error in Hloop.
Qed.

Lemma fetch_top_n_error_witness :
  ∃ log' p,
    [ {| apikey := "key"; language := "en"; category := None; page := None |} ]
    = log' ++ [p]
    ∧ Forall successful (replies refusing 0 log')
    ∧ refusing (length log') p = Json refusal
    ∧ status refusal ≠ Some "success".
Proof.
  apply (fetch_top_n_error refusing "key" 100 "en" 8 None
    [ {| apikey := "key"; language := "en"; category := None; page := None |} ]
    (RuntimeError refusal)); [by vm_compute|done].
Defined.

(** A further request is made only while fewer than [n] items are in
    hand: before each request but the first, the results of the replies
    received so far number less than [n]. *)
Theorem fetch_top_n_frugal srv api_key n lang max_calls cat log out j :
  fetch_run srv api_key n lang max_calls cat = (log, out) →
  S j < length log →
  (Z.of_nat (length (concat
     (page_items <$> take (S j) (replies srv 0 log)))) < n)%Z.
Proof.
  intros (out' & Hloop & _)%fetch_run_loop Hj.
  apply (fetch_loop_frugal _ _ _ _ _ _ _ _ _ _ _ j Hloop Hj).
Qed.

Lemma fetch_top_n_frugal_witness :
  (Z.of_nat (length (concat (page_items <$> take 1 (replies two_pages 0
     [ {| apikey := "key"; language := "en"; category := None; page := None |};
       {| apikey := "key"; language := "en"; category := None;
          page := Some "p2" |} ])))) < 100)%Z.
Proof.
  eapply (fetch_top_n_frugal two_pages "key" 100 "en" 8 None _ _ 0).
  - by vm_compute.
  - simpl. lia.
Defined.
